(** * Operators of the quantum-chemistry family and the adjoint transform

    A shallow embedding of [pennylane/ops/qubit/qchem_ops.py] and
    [pennylane/transforms/adjoint.py].

    - Gate parameters are real numbers ([R]); matrix entries are complex
      numbers, pairs of reals.
    - Operator construction reports to a recording context, so every function
      that constructs operators lives in a state-and-exception monad over the
      context.
    - Python exceptions are values of [PyExn]. *)

From Stdlib Require Import String Ascii Reals Lra ZArith Bool Arith Lia QArith Qreals List.
Import ListNotations.

Local Open Scope R_scope.

(* ================================================================== *)
(** ** Complex numbers *)
(* ================================================================== *)

Module Cplx.

Definition C : Type := (R * R)%type.

Definition RtoC (x : R) : C := (x, 0).
Definition Ci : C := (0, 1).
Definition Cadd (a b : C) : C := (fst a + fst b, snd a + snd b).
Definition Copp (a : C) : C := (- fst a, - snd a).
Definition Cmul (a b : C) : C :=
  (fst a * fst b - snd a * snd b, fst a * snd b + snd a * fst b).
Definition Cdiv (a b : C) : C :=
  let d := fst b * fst b + snd b * snd b in
  ((fst a * fst b + snd a * snd b) / d, (snd a * fst b - fst a * snd b) / d).
Definition Cconj (a : C) : C := (fst a, - snd a).
Definition Cexp (a : C) : C := (exp (fst a) * cos (snd a), exp (fst a) * sin (snd a)).
Definition Cnorm2 (a : C) : R := fst a * fst a + snd a * snd a.

End Cplx.
Import Cplx.

(* ================================================================== *)
(** ** Scalars and the array operations of the numeric facade *)
(* ================================================================== *)

(** The matrix builders of the source only add, multiply and negate their
    entries; they are written once over any type with these operations. *)
Class Scalar (K : Type) : Type := {
  k0 : K;
  k1 : K;
  kadd : K -> K -> K;
  kmul : K -> K -> K;
  kopp : K -> K
}.

#[export] Instance C_Scalar : Scalar C :=
  {| k0 := RtoC 0; k1 := RtoC 1; kadd := Cadd; kmul := Cmul; kopp := Copp |}.

Definition Matrix (K : Type) : Type := list (list K).

Section Arrays.
Context {K : Type} `{Scalar K}.

  (** [zeros([n])] *)
Definition zeros (n : nat) : list K := repeat k0 n.

  (** One row of [diag]: [x] at column [i], zero elsewhere, [n] columns. *)
Definition unit_row (n i : nat) (x : K) : list K :=
    repeat k0 i ++ x :: repeat k0 (n - S i).

Fixpoint diag_from (n i : nat) (d : list K) : Matrix K :=
    match d with
    | [] => []
    | x :: d' => unit_row n i x :: diag_from n (S i) d'
    end.

  (** [diag(d)]: the square matrix with [d] on its diagonal. *)
Definition diag (d : list K) : Matrix K := diag_from (length d) 0 d.

  (** [m[::-1]]: the rows in reverse order. *)
Definition flip_rows (m : Matrix K) : Matrix K := rev m.

Fixpoint zip_with {A B D : Type} (f : A -> B -> D) (l : list A) (l' : list B) : list D :=
    match l, l' with
    | x :: t, y :: t' => f x y :: zip_with f t t'
    | _, _ => []
    end.

  (** [a + b] on arrays of one shape. *)
Definition madd (a b : Matrix K) : Matrix K := zip_with (zip_with kadd) a b.

  (** [s * m] for a scalar [s]. *)
Definition mscale (s : K) (m : Matrix K) : Matrix K := map (map (kmul s)) m.

Fixpoint update {A : Type} (f : A -> A) (i : nat) (l : list A) : list A :=
    match l, i with
    | [], _ => []
    | x :: t, O => f x :: t
    | x :: t, S i' => x :: update f i' t
    end.

  (** [scatter_element_add(m, (i, j), v)]: [v] added to entry [(i, j)]. *)
Definition scatter_element_add (m : Matrix K) (ij : nat * nat) (v : K) : Matrix K :=
    update (update (fun x => kadd x v) (snd ij)) (fst ij) m.

  (** [stack(rows)]: the rows, one above the other. *)
Definition stack (rows : list (list K)) : Matrix K := rows.

  (** Entry [(i, j)]; zero outside the matrix. *)
Definition entry (m : Matrix K) (i j : nat) : K := nth j (nth i m []) k0.

Definition ksum (l : list K) : K := fold_right kadd k0 l.

Definition dot (u v : list K) : K := ksum (zip_with kmul u v).

Definition column (m : Matrix K) (j : nat) : list K := map (fun r => nth j r k0) m.

Definition ncols (m : Matrix K) : nat := length (nth 0 m []).

Definition transpose (m : Matrix K) : Matrix K :=
    map (column m) (seq 0 (ncols m)).

  (** The matrix product [a @ b]. *)
Definition mmul (a b : Matrix K) : Matrix K :=
    map (fun r => map (fun j => dot r (column b j)) (seq 0 (ncols b))) a.

Definition identity (n : nat) : Matrix K := diag (repeat k1 n).

End Arrays.

(** [conjugate_transpose(m)] *)
Definition conjugate_transpose (m : Matrix C) : Matrix C :=
  map (map Cconj) (transpose m).

(** A function applied to every entry. *)
Definition map_matrix {A B : Type} (f : A -> B) (m : Matrix A) : Matrix B :=
  map (map f) m.

(* ================================================================== *)
(** ** Operators *)
(* ================================================================== *)

(** A wire label. *)
Definition Wire : Type := Z.

(** The gate families defined in [qchem_ops.py]. *)
Inductive QChemKind : Type :=
| SingleExcitation
| SingleExcitationMinus
| SingleExcitationPlus
| DoubleExcitation
| DoubleExcitationPlus
| DoubleExcitationMinus
| OrbitalRotation.

(** All operator classes that occur: the family above, the gates its
    decompositions are built from, and the gates and the template the tests of
    the transform use. *)
Inductive Kind : Type :=
| QChem (k : QChemKind)
| PauliX | Hadamard | CNOT | RX | RY | RZ | CRY | ControlledPhaseShift
| QFT.

Coercion QChem : QChemKind >-> Kind.

(** An operator is an instance of a class, with its parameters and wires, or
    the wrapper [Adjoint(base)]. *)
Inductive Operator : Type :=
| Op (kind : Kind) (params : list R) (ws : list Wire)
| Adjoint (base : Operator).

(** [op.parameters] / [op.data]; the wrapper has those of its base. *)
Fixpoint parameters (op : Operator) : list R :=
  match op with
  | Op _ ps _ => ps
  | Adjoint b => parameters b
  end.

(** [op.wires]; the wrapper has those of its base. *)
Fixpoint wires (op : Operator) : list Wire :=
  match op with
  | Op _ _ w => w
  | Adjoint b => wires b
  end.

(** [op.base], defined on the wrapper only. *)
Definition base (op : Operator) : option Operator :=
  match op with
  | Op _ _ _ => None
  | Adjoint b => Some b
  end.

(** [op.__class__ is Adjoint] *)
Definition is_Adjoint (op : Operator) : bool :=
  match op with
  | Op _ _ _ => false
  | Adjoint _ => true
  end.

(** [num_wires] and [num_params] of the classes of [qchem_ops.py]. *)
Definition num_wires (k : QChemKind) : nat :=
  match k with
  | SingleExcitation | SingleExcitationMinus | SingleExcitationPlus => 2
  | DoubleExcitation | DoubleExcitationPlus | DoubleExcitationMinus
  | OrbitalRotation => 4
  end.


(* ================================================================== *)
(** ** Exceptions, the recording context and its monad *)
(* ================================================================== *)

Inductive PyExn : Type :=
| ValueError (msg : string)
| TypeError
| IndexError
| AttributeError
| DecompositionUndefinedError
| QueuingError.

Inductive result (A : Type) : Type :=
| Ok (a : A)
| Raise (e : PyExn).
Arguments Ok {A} a.
Arguments Raise {A} e.

(** Modelled from the spec: the tape of [pennylane/tape], which is not under
    [src/]: the ordered, append-only sequence of the operators constructed
    during one recording session.  The model keeps its operation list. *)
Definition Tape : Type := list Operator.

(** Modelled from the spec: the recording context of [pennylane/queuing.py],
    which is not under [src/]: a stack of active tapes, top first, and the
    stacks that suspend guards have put aside, innermost first. *)
Record QueuingContext : Type := mkQC {
  active_contexts : list Tape;
  suspended : list (list Tape)
}.

(** A computation that may construct operators and may raise. *)
Definition M (A : Type) : Type := QueuingContext -> result A * QueuingContext.

Definition ret {A : Type} (a : A) : M A := fun q => (Ok a, q).

Definition raise {A : Type} (e : PyExn) : M A := fun q => (Raise e, q).

Definition bind {A B : Type} (c : M A) (f : A -> M B) : M B :=
  fun q =>
    match c q with
    | (Ok a, q') => f a q'
    | (Raise e, q') => (Raise e, q')
    end.

Declare Scope monad_scope.
Delimit Scope monad_scope with monad.
Notation "x <- c ;; k" := (bind c (fun x => k))
  (at level 61, c at next level, right associativity) : monad_scope.
Notation "c ;;; k" := (bind c (fun _ => k))
  (at level 61, right associativity) : monad_scope.
Local Open Scope monad_scope.

(** The elements of a list display are evaluated from left to right. *)
Fixpoint sequence {A : Type} (l : list (M A)) : M (list A) :=
  match l with
  | [] => ret []
  | c :: l' => x <- c ;; xs <- sequence l' ;; ret (x :: xs)
  end.

(** The operators [ops] reported to the top tape, in order; nothing is
    recorded when no tape is active. *)
Definition append_ops (ops : list Operator) (q : QueuingContext) : QueuingContext :=
  match active_contexts q with
  | [] => q
  | t :: rest => mkQC ((t ++ ops) :: rest) (suspended q)
  end.

(** Modelled from the spec: operator construction ([Operator.__init__] of
    [pennylane/operation.py], not under [src/]): the new operator is appended
    to the top tape when one is active; without one it is a standalone value. *)
Definition construct (op : Operator) : M Operator :=
  fun q => (Ok op, append_ops [op] q).

(** Modelled from the spec: [enter()] pushes a new empty tape and returns a
    handle, here the depth of the stack. *)
Definition tape_enter : M nat :=
  fun q =>
    let stack := [] :: active_contexts q in
    (Ok (List.length stack), mkQC stack (suspended q)).

(** Modelled from the spec: [exit(handle)] pops the tape of the handle, which
    must be the top of the stack, and returns it frozen. *)
Definition tape_exit (h : nat) : M Tape :=
  fun q =>
    match active_contexts q with
    | t :: rest =>
        if Nat.eqb (List.length (active_contexts q)) h
        then (Ok t, mkQC rest (suspended q))
        else (Raise QueuingError, q)
    | [] => (Raise QueuingError, q)
    end.

(** Modelled from the spec: [suspend()] puts the active stack aside, so that
    no active tape is notified. *)
Definition suspend_enter : M unit :=
  fun q => (Ok tt, mkQC [] (active_contexts q :: suspended q)).

(** Modelled from the spec: the release of the innermost guard restores the
    stack that was active when the guard was taken. *)
Definition suspend_exit : M unit :=
  fun q =>
    match suspended q with
    | s :: rest => (Ok tt, mkQC s rest)
    | [] => (Ok tt, q)
    end.

(** The clean-up [fin] runs on every exit path of [body]; an exception of the
    body propagates after it. *)
Definition finally {A B : Type} (body : M A) (fin : M B) : M (A * B) :=
  fun q =>
    match body q with
    | (Ok a, q') =>
        match fin q' with
        | (Ok b, q'') => (Ok (a, b), q'')
        | (Raise e, q'') => (Raise e, q'')
        end
    | (Raise e, q') => (Raise e, snd (fin q'))
    end.

(** [with stop_recording(), QuantumTape() as tape: body]: the value of the
    body and the tape as it is after the block. *)
Definition with_stop_recording_tape {A : Type} (body : M A) : M (A * Tape) :=
  r <- finally
         (suspend_enter ;;;
          h <- tape_enter ;;
          finally body (tape_exit h))
         suspend_exit ;;
  ret (fst r).

(** [wires[i]] *)
Definition getitem {A : Type} (l : list A) (i : nat) : M A :=
  match nth_error l i with
  | Some x => ret x
  | None => raise IndexError
  end.

(* ================================================================== *)
(** ** [qchem_ops.py]: matrices *)
(* ================================================================== *)

(** The numeric interface of a parameter, [qml.math.get_interface]. *)
Inductive Interface : Type := numpy | autograd | tensorflow | torch | jax.

Definition is_tensorflow (i : Interface) : bool :=
  match i with tensorflow => true | _ => false end.

Definition is_torch (i : Interface) : bool :=
  match i with torch => true | _ => false end.

(** [cast_like(x, 1j)] and [convert_like(x, theta)] change the type of a
    tensor and keep its value; entries are complex throughout the model. *)
Definition cast_like (x : C) : C := x.

Section Builders.
Context {K : Type} `{Scalar K}.

  (** [np.diag([0, 1, -1, 0])[::-1]]; [convert_like] and [cast_like] keep
      its entries. *)
Definition off_diag : Matrix K := flip_rows (diag [k0; k1; kopp k1; k0]).

  (** [SingleExcitation._matrix] from [c] and [s]. *)
Definition SingleExcitation_build (c s : K) : Matrix K :=
    let mat := diag [k1; c; c; k1] in
    madd mat (mscale s off_diag).

  (** [SingleExcitationMinus._matrix] and [SingleExcitationPlus._matrix]
      from [c], [s] and the phase [e]. *)
Definition SingleExcitationPhase_build (c s e : K) : Matrix K :=
    let mat := madd (diag [e; k0; k0; e]) (diag [k0; c; c; k0]) in
    madd mat (mscale s off_diag).

  (** [DoubleExcitation._matrix] from [c] and [s]. *)
Definition DoubleExcitation_build (c s : K) : Matrix K :=
    let mat := diag (repeat k1 3 ++ [c] ++ repeat k1 8 ++ [c] ++ repeat k1 3) in
    let mat := scatter_element_add mat (3, 12)%nat (kopp s) in
    let mat := scatter_element_add mat (12, 3)%nat s in
    mat.

  (** [DoubleExcitationPlus._matrix] and [DoubleExcitationMinus._matrix]
      from [c], [s] and the phase [e]. *)
Definition DoubleExcitationPhase_build (c s e : K) : Matrix K :=
    let mat := diag (repeat e 3 ++ [k0] ++ repeat e 8 ++ [k0] ++ repeat e 3) in
    let mat := scatter_element_add mat (3, 3)%nat c in
    let mat := scatter_element_add mat (3, 12)%nat (kopp s) in
    let mat := scatter_element_add mat (12, 3)%nat s in
    let mat := scatter_element_add mat (12, 12)%nat c in
    mat.

Definition kpow2 (x : K) : K := kmul x x.

  (** [OrbitalRotation._matrix] from [c], [s] and the zero row [z]. *)
Definition OrbitalRotation_build (c s : K) (z : list K) : Matrix K :=
    let o := k0 in
    let c2 := kpow2 c in
    let diag_ := diag [k1; c; c; c2; c; k1; c2; c; c; c2; k1; c; c2; c; c; k1] in
    madd diag_
      (stack
         [ z;
           [o; o; o; o; kopp s; o; o; o; o; o; o; o; o; o; o; o];
           [o; o; o; o; o; o; o; o; kopp s; o; o; o; o; o; o; o];
           [o; o; o; o; o; o; kmul (kopp c) s; o; o; kmul (kopp c) s; o; o; kmul s s; o; o; o];
           [o; s; o; o; o; o; o; o; o; o; o; o; o; o; o; o];
           z;
           [o; o; o; kmul c s; o; o; o; o; o; kmul (kopp s) s; o; o; kmul (kopp c) s; o; o; o];
           [o; o; o; o; o; o; o; o; o; o; o; o; o; kopp s; o; o];
           [o; o; s; o; o; o; o; o; o; o; o; o; o; o; o; o];
           [o; o; o; kmul c s; o; o; kmul (kopp s) s; o; o; o; o; o; kmul (kopp c) s; o; o; o];
           z;
           [o; o; o; o; o; o; o; o; o; o; o; o; o; o; kopp s; o];
           [o; o; o; kmul s s; o; o; kmul c s; o; o; kmul c s; o; o; o; o; o; o];
           [o; o; o; o; o; o; o; s; o; o; o; o; o; o; o; o];
           [o; o; o; o; o; o; o; o; o; o; o; s; o; o; o; o];
           z ]).

End Builders.

(** The [_matrix] methods.  A real number does not carry the numeric
    interface that [get_interface(theta)] reads off the parameter, so the
    interface is an argument of the methods that branch on it. *)

(** [qml.math.cos(theta / 2)] and [qml.math.sin(theta / 2)] *)
Definition cos_half (theta : R) : C := RtoC (cos (theta / 2)).
Definition sin_half (theta : R) : C := RtoC (sin (theta / 2)).

(** [qml.math.exp(-1j * theta / 2)] *)
Definition exp_minus (theta : R) : C :=
  Cexp (Cdiv (Cmul (Copp Ci) (RtoC theta)) (RtoC 2)).

(** [qml.math.exp(1j * theta / 2)] *)
Definition exp_plus (theta : R) : C :=
  Cexp (Cdiv (Cmul Ci (RtoC theta)) (RtoC 2)).

Definition SingleExcitation_matrix (theta : R) : Matrix C :=
  let c := cos_half theta in
  let s := sin_half theta in
  SingleExcitation_build c s.

Definition SingleExcitationMinus_matrix (interface : Interface) (theta : R) : Matrix C :=
  let c := cos_half theta in
  let s := sin_half theta in
  let c := if is_tensorflow interface then cast_like c else c in
  let s := if is_tensorflow interface then cast_like s else s in
  let e := exp_minus theta in
  SingleExcitationPhase_build c s e.

Definition SingleExcitationPlus_matrix (interface : Interface) (theta : R) : Matrix C :=
  let c := cos_half theta in
  let s := sin_half theta in
  let c := if is_tensorflow interface then cast_like c else c in
  let s := if is_tensorflow interface then cast_like s else s in
  let e := exp_plus theta in
  SingleExcitationPhase_build c s e.

Definition DoubleExcitation_matrix (theta : R) : Matrix C :=
  let c := cos_half theta in
  let s := sin_half theta in
  DoubleExcitation_build c s.

Definition DoubleExcitationPlus_matrix (interface : Interface) (theta : R) : Matrix C :=
  let c := cos_half theta in
  let s := sin_half theta in
  let c := if is_tensorflow interface then cast_like c else c in
  let s := if is_tensorflow interface then cast_like s else s in
  let e := exp_plus theta in
  DoubleExcitationPhase_build c s e.

Definition DoubleExcitationMinus_matrix (interface : Interface) (theta : R) : Matrix C :=
  let c := cos_half theta in
  let s := sin_half theta in
  let c := if is_tensorflow interface then cast_like c else c in
  let s := if is_tensorflow interface then cast_like s else s in
  let e := exp_minus theta in
  DoubleExcitationPhase_build c s e.

Definition OrbitalRotation_matrix (interface : Interface) (phi : R) : Matrix C :=
  let c := cos_half phi in
  let s := sin_half phi in
  let z := if is_torch interface then List.map cast_like (zeros 16) else zeros 16 in
  OrbitalRotation_build c s z.

(** [cls._matrix], called on the parameters, with [theta = params[0]]. *)
Definition matrix (interface : Interface) (k : QChemKind) (params : list R)
  : result (Matrix C) :=
  match params with
  | [] => Raise IndexError
  | theta :: _ =>
      Ok match k with
         | SingleExcitation => SingleExcitation_matrix theta
         | SingleExcitationMinus => SingleExcitationMinus_matrix interface theta
         | SingleExcitationPlus => SingleExcitationPlus_matrix interface theta
         | DoubleExcitation => DoubleExcitation_matrix theta
         | DoubleExcitationPlus => DoubleExcitationPlus_matrix interface theta
         | DoubleExcitationMinus => DoubleExcitationMinus_matrix interface theta
         | OrbitalRotation => OrbitalRotation_matrix interface theta
         end
  end.

(* ================================================================== *)
(** ** [qchem_ops.py]: decompositions and adjoints *)
(* ================================================================== *)

(** [qml.Cls(params, wires=[w, ...])]: the wire expressions are evaluated,
    then the operator is constructed. *)
Definition qml (k : Kind) (ps : list R) (wire_exprs : list (M Wire)) : M Operator :=
  w <- sequence wire_exprs ;;
  construct (Op k ps w).

Definition SingleExcitation_compute_decomposition (phi : R) (wires : list Wire)
  : M (list Operator) :=
  decomp_ops <- sequence
    [ qml CNOT [] [getitem wires 0; getitem wires 1];
      qml CRY [phi] [getitem wires 1; getitem wires 0];
      qml CNOT [] [getitem wires 0; getitem wires 1] ] ;;
  ret decomp_ops.

Definition SingleExcitationMinus_compute_decomposition (phi : R) (wires : list Wire)
  : M (list Operator) :=
  decomp_ops <- sequence
    [ qml PauliX [] [getitem wires 0];
      qml PauliX [] [getitem wires 1];
      qml ControlledPhaseShift [- phi / 2] [getitem wires 1; getitem wires 0];
      qml PauliX [] [getitem wires 0];
      qml PauliX [] [getitem wires 1];
      qml ControlledPhaseShift [- phi / 2] [getitem wires 0; getitem wires 1];
      qml CNOT [] [getitem wires 0; getitem wires 1];
      qml CRY [phi] [getitem wires 1; getitem wires 0];
      qml CNOT [] [getitem wires 0; getitem wires 1] ] ;;
  ret decomp_ops.

Definition SingleExcitationPlus_compute_decomposition (phi : R) (wires : list Wire)
  : M (list Operator) :=
  decomp_ops <- sequence
    [ qml PauliX [] [getitem wires 0];
      qml PauliX [] [getitem wires 1];
      qml ControlledPhaseShift [phi / 2] [getitem wires 1; getitem wires 0];
      qml PauliX [] [getitem wires 0];
      qml PauliX [] [getitem wires 1];
      qml ControlledPhaseShift [phi / 2] [getitem wires 0; getitem wires 1];
      qml CNOT [] [getitem wires 0; getitem wires 1];
      qml CRY [phi] [getitem wires 1; getitem wires 0];
      qml CNOT [] [getitem wires 0; getitem wires 1] ] ;;
  ret decomp_ops.

Definition DoubleExcitation_compute_decomposition (phi : R) (wires : list Wire)
  : M (list Operator) :=
  decomp_ops <- sequence
    [ qml CNOT [] [getitem wires 2; getitem wires 3];
      qml CNOT [] [getitem wires 0; getitem wires 2];
      qml Hadamard [] [getitem wires 3];
      qml Hadamard [] [getitem wires 0];
      qml CNOT [] [getitem wires 2; getitem wires 3];
      qml CNOT [] [getitem wires 0; getitem wires 1];
      qml RY [phi / 8] [getitem wires 1];
      qml RY [- phi / 8] [getitem wires 0];
      qml CNOT [] [getitem wires 0; getitem wires 3];
      qml Hadamard [] [getitem wires 3];
      qml CNOT [] [getitem wires 3; getitem wires 1];
      qml RY [phi / 8] [getitem wires 1];
      qml RY [- phi / 8] [getitem wires 0];
      qml CNOT [] [getitem wires 2; getitem wires 1];
      qml CNOT [] [getitem wires 2; getitem wires 0];
      qml RY [- phi / 8] [getitem wires 1];
      qml RY [phi / 8] [getitem wires 0];
      qml CNOT [] [getitem wires 3; getitem wires 1];
      qml Hadamard [] [getitem wires 3];
      qml CNOT [] [getitem wires 0; getitem wires 3];
      qml RY [- phi / 8] [getitem wires 1];
      qml RY [phi / 8] [getitem wires 0];
      qml CNOT [] [getitem wires 0; getitem wires 1];
      qml CNOT [] [getitem wires 2; getitem wires 0];
      qml Hadamard [] [getitem wires 0];
      qml Hadamard [] [getitem wires 3];
      qml CNOT [] [getitem wires 0; getitem wires 2];
      qml CNOT [] [getitem wires 2; getitem wires 3] ] ;;
  ret decomp_ops.

Definition OrbitalRotation_compute_decomposition (phi : R) (wires : list Wire)
  : M (list Operator) :=
  decomp_ops <- sequence
    [ qml Hadamard [] [getitem wires 3];
      qml Hadamard [] [getitem wires 2];
      qml CNOT [] [getitem wires 3; getitem wires 1];
      qml CNOT [] [getitem wires 2; getitem wires 0];
      qml RY [phi / 2] [getitem wires 3];
      qml RY [phi / 2] [getitem wires 2];
      qml RY [phi / 2] [getitem wires 1];
      qml RY [phi / 2] [getitem wires 0];
      qml CNOT [] [getitem wires 3; getitem wires 1];
      qml CNOT [] [getitem wires 2; getitem wires 0];
      qml Hadamard [] [getitem wires 3];
      qml Hadamard [] [getitem wires 2] ] ;;
  ret decomp_ops.

(** Modelled from the spec: [Operator.compute_decomposition] of the base class
    ([pennylane/operation.py], not under [src/]), which a class that supplies
    no decomposition inherits: it surfaces the "decomposition undefined"
    condition. *)
Definition Operator_compute_decomposition (phi : R) (wires : list Wire)
  : M (list Operator) :=
  raise DecompositionUndefinedError.

(** [Cls.compute_decomposition(phi, wires)], by class. *)
Definition compute_decomposition (k : QChemKind) (phi : R) (wires : list Wire)
  : M (list Operator) :=
  match k with
  | SingleExcitation => SingleExcitation_compute_decomposition phi wires
  | SingleExcitationMinus => SingleExcitationMinus_compute_decomposition phi wires
  | SingleExcitationPlus => SingleExcitationPlus_compute_decomposition phi wires
  | DoubleExcitation => DoubleExcitation_compute_decomposition phi wires
  | DoubleExcitationPlus => Operator_compute_decomposition phi wires
  | DoubleExcitationMinus => Operator_compute_decomposition phi wires
  | OrbitalRotation => OrbitalRotation_compute_decomposition phi wires
  end.

(** The classes of [qchem_ops.py] that define [compute_decomposition]. *)
Definition has_compute_decomposition (k : QChemKind) : bool :=
  match k with
  | DoubleExcitationPlus | DoubleExcitationMinus => false
  | _ => true
  end.

(** [(phi,) = self.parameters] *)
Definition unpack1 (ps : list R) : M R :=
  match ps with
  | [phi] => ret phi
  | [] => raise (ValueError "not enough values to unpack (expected 1, got 0)")
  | _ => raise (ValueError "too many values to unpack (expected 1)")
  end.

(** [self.adjoint()] of the seven classes: each reads its parameter and
    constructs [Cls(-phi, wires=self.wires)]. *)
Definition QChem_adjoint (k : QChemKind) (self_parameters : list R)
  (self_wires : list Wire) : M Operator :=
  phi <- unpack1 self_parameters ;;
  construct (Op k [- phi] self_wires).

(** The classes of [qchem_ops.py] that define [adjoint]: all of them. *)
Definition defines_adjoint (k : QChemKind) : bool := true.

(** [op.adjoint()] for an instance of a class of [qchem_ops.py]. *)
Definition adjoint_method (op : Operator) : option (M Operator) :=
  match op with
  | Op (QChem k) ps w => Some (QChem_adjoint k ps w)
  | _ => None
  end.

(* ================================================================== *)
(** ** [transforms/adjoint.py] *)
(* ================================================================== *)

(** The values the transform meets: what it is applied to and what a
    procedure returns.  A callable carries the computation that calling it on
    its arguments performs. *)
#[warnings="-register-all"] Inductive PyValue : Type :=
| VNone
| VOperator (op : Operator)
| VList (items : list Operator)
| VTuple (items : list Operator)
| VTape (operations : Tape)
| VFunction (body : QueuingContext -> result PyValue * QueuingContext).

(** [type(v)] *)
Inductive PyType : Type :=
| TNoneType
| TOperatorClass (k : Kind)
| TAdjointClass
| TList
| TTuple
| TQuantumTape
| TFunction.

Definition type_of (v : PyValue) : PyType :=
  match v with
  | VNone => TNoneType
  | VOperator (Op k _ _) => TOperatorClass k
  | VOperator (Adjoint _) => TAdjointClass
  | VList _ => TList
  | VTuple _ => TTuple
  | VTape _ => TQuantumTape
  | VFunction _ => TFunction
  end.

(** [callable(v)] *)
Definition callable (v : PyValue) : bool :=
  match v with
  | VFunction _ => true
  | _ => false
  end.

(** The call of [fn] on the arguments that the wrapper passes through. *)
Definition call (fn : PyValue) : M PyValue :=
  match fn with
  | VFunction body => body
  | _ => raise TypeError
  end.

(** [tape.operations], an attribute that only a tape has. *)
Definition operations_of (v : PyValue) : M (list Operator) :=
  match v with
  | VTape ops => ret ops
  | _ => raise AttributeError
  end.

(** [not tape.operations]: an empty list is false. *)
Definition is_empty {A : Type} (l : list A) : bool :=
  match l with
  | [] => true
  | _ :: _ => false
  end.

(** The [wrapper] that [adjoint(fn)] returns. *)
Definition wrapper (fn : PyValue) : M PyValue :=
  r <- with_stop_recording_tape (call fn) ;;
  let res := fst r in
  let tape := snd r in
  ops <- (if is_empty tape
          then operations_of res
          else ret tape) ;;
  adjoint_ops <- sequence (List.map (fun op => construct (Adjoint op)) (rev ops)) ;;
  if Nat.eqb (List.length adjoint_ops) 1
  then a <- getitem adjoint_ops 0 ;; ret (VOperator a)
  else ret (VList adjoint_ops).

Section Adjoint.
  (** The texts that the f-string of the error message interpolates: [str]
      of a value and [str] of a type. *)
Variable str_of_value : PyValue -> string.
Variable str_of_type : PyType -> string.

Definition not_callable_message (fn : PyValue) : string :=
    ("The object " ++ str_of_value fn ++ " of type " ++ str_of_type (type_of fn)
       ++ " is not callable. "
       ++ "This error might occur if you apply adjoint to a list "
       ++ "of operations instead of a function or template.")%string.

  (** [adjoint(fn)] *)
Definition adjoint (fn : PyValue) : M PyValue :=
    if negb (callable fn)
    then raise (ValueError (not_callable_message fn))
    else ret (VFunction (wrapper fn)).

End Adjoint.

(** A procedure that constructs the operators [ops] in order and returns
    [res]. *)
Definition procedure (ops : list Operator) (res : PyValue) : PyValue :=
  VFunction (sequence (List.map construct ops) ;;; ret res).

(** An operator class as a callable: calling it constructs one instance and
    returns it. *)
Definition operator_class_call (op : Operator) : PyValue :=
  VFunction (o <- construct op ;; ret (VOperator o)).

(** [fn] behaves as a procedure that emits [ops] in order and returns [res]:
    whatever the recording context, calling it reports exactly [ops] to the
    active tape. *)
Definition emits (fn : PyValue) (ops : list Operator) (res : PyValue) : Prop :=
  callable fn = true /\
  forall q, call fn q = (Ok res, append_ops ops q).

(** The value [wrapper] returns for the adjointed operators [l]. *)
Definition single_or_list (l : list Operator) : PyValue :=
  match l with
  | [a] => VOperator a
  | _ => VList l
  end.

(* ================================================================== *)
(** ** Operators as objects *)
(* ================================================================== *)

(** Python operators are objects with identity.  The store holds the objects
    created so far; a reference is an index into it. *)
Definition Ref : Type := nat.
Definition Store : Type := list Operator.

Definition deref (st : Store) (r : Ref) : option Operator := nth_error st r.

(** Construction allocates a new object behind a new reference. *)
Definition allocate (o : Operator) (st : Store) : Ref * Store :=
  (List.length st, st ++ [o]).

(** [self.adjoint()] on the object behind [self]:
    [(phi,) = self.parameters; return Cls(-phi, wires=self.wires)]. *)
Definition adjoint_object (self : Ref) (st : Store) : result Ref * Store :=
  match deref st self with
  | Some (Op (QChem k) ps w) =>
      match ps with
      | [phi] =>
          let (r, st') := allocate (Op k [- phi] w) st in (Ok r, st')
      | [] => (Raise (ValueError "not enough values to unpack (expected 1, got 0)"), st)
      | _ => (Raise (ValueError "too many values to unpack (expected 1)"), st)
      end
  | _ => (Raise AttributeError, st)
  end.

(* ================================================================== *)
(** ** The matrix of a sequence of gates *)
(* ================================================================== *)

Section Gates.
Context {K : Type} `{Scalar K}.

Definition PauliX_build : Matrix K := [[k0; k1]; [k1; k0]].

  (** [h] is [1 / sqrt(2)]. *)
Definition Hadamard_build (h : K) : Matrix K := [[h; h]; [h; kopp h]].

Definition CNOT_build : Matrix K :=
    [[k1; k0; k0; k0]; [k0; k1; k0; k0]; [k0; k0; k0; k1]; [k0; k0; k1; k0]].

Definition RY_build (c s : K) : Matrix K := [[c; kopp s]; [s; c]].

Definition CRY_build (c s : K) : Matrix K :=
    [[k1; k0; k0; k0]; [k0; k1; k0; k0]; [k0; k0; c; kopp s]; [k0; k0; s; c]].

Definition ControlledPhaseShift_build (e : K) : Matrix K := diag [k1; k1; k1; e].

  (** The bit of the basis index [i] that belongs to the wire at position
      [p] of a register of [n] wires; the first wire is the most significant. *)
Definition bit_at (n i p : nat) : bool := Nat.testbit i (n - 1 - p).

  (** The index that the wires at the positions [pos] spell, in their order. *)
Definition sub_index (n : nat) (pos : list nat) (i : nat) : nat :=
    fold_left (fun acc p => (2 * acc + (if bit_at n i p then 1 else 0))%nat) pos 0%nat.

  (** The basis indices [i] and [j] agree on every wire outside [pos]. *)
Definition agree_outside (n : nat) (pos : list nat) (i j : nat) : bool :=
    forallb (fun p => existsb (Nat.eqb p) pos || Bool.eqb (bit_at n i p) (bit_at n j p))
            (seq 0 n).

  (** The matrix [m] of a gate on the wires at the positions [pos], as a
      matrix on the whole register of [n] wires. *)
Definition expand_matrix (m : Matrix K) (pos : list nat) (n : nat) : Matrix K :=
    List.map (fun i =>
      List.map (fun j =>
        if agree_outside n pos i j
        then entry m (sub_index n pos i) (sub_index n pos j)
        else k0) (seq 0 (2 ^ n))) (seq 0 (2 ^ n)).

  (** The gates [gs], each a matrix with the positions it acts on, applied in
      order to [acc]: the gate applied first is the rightmost factor. *)
Fixpoint apply_gates (n : nat) (gs : list (Matrix K * list nat)) (acc : Matrix K)
    : Matrix K :=
    match gs with
    | [] => acc
    | (m, pos) :: gs' => apply_gates n gs' (mmul (expand_matrix m pos n) acc)
    end.

End Gates.

(** [INV_SQRT2 = 1 / math.sqrt(2)] *)
Definition INV_SQRT2 : R := 1 / sqrt 2.

(** Modelled from the spec: the matrices of the gates that the decompositions
    are built from, [PauliX], [Hadamard], [CNOT], [RY], [CRY] and
    [ControlledPhaseShift].  Their classes are defined outside [src/]; the
    spec names them, and they have the standard matrices of these gates in the
    basis ordered by the gate's own wires. *)
Definition gate_matrix (op : Operator) : option (Matrix C) :=
  match op with
  | Op PauliX [] _ => Some PauliX_build
  | Op Hadamard [] _ => Some (Hadamard_build (RtoC INV_SQRT2))
  | Op CNOT [] _ => Some CNOT_build
  | Op RY [theta] _ => Some (RY_build (cos_half theta) (sin_half theta))
  | Op CRY [theta] _ => Some (CRY_build (cos_half theta) (sin_half theta))
  | Op ControlledPhaseShift [phi] _ =>
      Some (ControlledPhaseShift_build (Cexp (Cmul Ci (RtoC phi))))
  | _ => None
  end.

(** The position of the wire [w] in the register [order]. *)
Fixpoint index_of (w : Wire) (order : list Wire) : option nat :=
  match order with
  | [] => None
  | x :: t => if Z.eqb x w then Some 0%nat else option_map S (index_of w t)
  end.

Fixpoint positions (order ws : list Wire) : option (list nat) :=
  match ws with
  | [] => Some []
  | w :: ws' =>
      match index_of w order, positions order ws' with
      | Some p, Some ps => Some (p :: ps)
      | _, _ => None
      end
  end.

(** The gate of [op] with the positions of its wires in [order]. *)
Definition placed_gate (order : list Wire) (op : Operator)
  : option (Matrix C * list nat) :=
  match gate_matrix op, positions order (wires op) with
  | Some m, Some pos => Some (m, pos)
  | _, _ => None
  end.

Fixpoint placed_gates (order : list Wire) (ops : list Operator)
  : option (list (Matrix C * list nat)) :=
  match ops with
  | [] => Some []
  | op :: ops' =>
      match placed_gate order op, placed_gates order ops' with
      | Some g, Some gs => Some (g :: gs)
      | _, _ => None
      end
  end.

(** The matrix of the sequence [ops] on the register [order], the operators
    applied from left to right: the first operator of the sequence acts first. *)
Definition sequence_matrix (order : list Wire) (ops : list Operator)
  : option (Matrix C) :=
  match placed_gates order ops with
  | Some gs =>
      let n := List.length order in
      Some (apply_gates n gs (identity (2 ^ n)))
  | None => None
  end.

(** [a] and [b] are equal up to a global phase. *)
Definition equal_up_to_phase (a b : Matrix C) : Prop :=
  exists lambda : C, Cnorm2 lambda = 1 /\ a = mscale lambda b.

(* ================================================================== *)
(** ** Symbolic scalars *)
(* ================================================================== *)

(** The entries of the matrices above are polynomials in [cos x], [sin x] and
    [1 / sqrt 2] with rational coefficients, with [x] one sixteenth of the
    gate parameter.  This module gives them an exact representation, in which
    sums and products are computed, and its interpretation in the complex
    numbers. *)
Module Sym.

(** Rationals, kept reduced. *)
Definition Q_Scalar : Scalar Q :=
  {| k0 := 0%Q; k1 := 1%Q;
     kadd := fun a b => Qred (a + b)%Q;
     kmul := fun a b => Qred (a * b)%Q;
     kopp := fun a => Qred (- a)%Q |}.

Definition Q_is_zero (a : Q) : bool := Qeq_bool a 0%Q.

Definition Q_ev (a : Q) : C := RtoC (Q2R a).

Section Extension.
Context {A : Type} (SA : Scalar A) (isz : A -> bool) (ev : A -> C).

(** [A[t] / (t * t = d)]: the pair [(a, b)] stands for [a + b * t]. *)
Definition Ext_Scalar (d : A) : Scalar (A * A) :=
  {| k0 := (k0, k0);
     k1 := (k1, k0);
     kadd := fun x y => (kadd (fst x) (fst y), kadd (snd x) (snd y));
     kmul := fun x y =>
       (kadd (kmul (fst x) (fst y)) (kmul d (kmul (snd x) (snd y))),
        kadd (kmul (fst x) (snd y)) (kmul (snd x) (fst y)));
     kopp := fun x => (kopp (fst x), kopp (snd x)) |}.

Definition Ext_is_zero (x : A * A) : bool := isz (fst x) && isz (snd x).

Definition Ext_ev (t : C) (x : A * A) : C := Cadd (ev (fst x)) (Cmul (ev (snd x)) t).

(** Polynomials in one variable, lowest coefficient first, without trailing
    zero coefficients. *)
Definition pcons (a : A) (p : list A) : list A :=
  if isz a && is_empty p then [] else a :: p.

Fixpoint padd (p q : list A) : list A :=
  match p, q with
  | [], _ => q
  | _, [] => p
  | a :: p', b :: q' => pcons (kadd a b) (padd p' q')
  end.

Definition pscale (a : A) (p : list A) : list A :=
  fold_right (fun b acc => pcons (kmul a b) acc) [] p.

Fixpoint pmul (p q : list A) : list A :=
  match p with
  | [] => []
  | a :: p' => padd (pscale a q) (pcons k0 (pmul p' q))
  end.

Definition Poly_Scalar : Scalar (list A) :=
  {| k0 := []; k1 := pcons k1 [];
     kadd := padd; kmul := pmul;
     kopp := pscale (kopp k1) |}.

Definition Poly_is_zero (p : list A) : bool := forallb isz p.

Definition Poly_ev (x : C) (p : list A) : C :=
  fold_right (fun a acc => Cadd (ev a) (Cmul x acc)) (RtoC 0) p.

End Extension.

(** [a + b * h] with [h = 1 / sqrt 2]. *)
Definition K1 : Type := (Q * Q)%type.
Definition K1_Scalar : Scalar K1 := Ext_Scalar Q_Scalar (1 # 2)%Q.
Definition K1_is_zero : K1 -> bool := Ext_is_zero Q_is_zero.
Definition K1_ev : K1 -> C := Ext_ev Q_ev (RtoC INV_SQRT2).

(** Polynomials in [c = cos x]. *)
Definition P : Type := list K1.
Definition P_Scalar : Scalar P := Poly_Scalar K1_Scalar K1_is_zero.
Definition P_is_zero : P -> bool := Poly_is_zero K1_is_zero.
Definition P_ev (x : R) : P -> C := Poly_ev K1_ev (RtoC (cos x)).

(** [1 - c * c], the square of [s = sin x]. *)
Definition one_minus_c2 : P :=
  [ @k1 _ K1_Scalar; @k0 _ K1_Scalar; @kopp _ K1_Scalar (@k1 _ K1_Scalar) ].

(** [a + b * s] with [s = sin x]. *)
Definition K2 : Type := (P * P)%type.
Definition K2_Scalar : Scalar K2 := Ext_Scalar P_Scalar one_minus_c2.
Definition K2_is_zero : K2 -> bool := Ext_is_zero P_is_zero.
Definition K2_ev (x : R) : K2 -> C := Ext_ev (P_ev x) (RtoC (sin x)).

(** [a + b * i]. *)
Definition T : Type := (K2 * K2)%type.
Definition T_Scalar : Scalar T := Ext_Scalar K2_Scalar (@kopp _ K2_Scalar (@k1 _ K2_Scalar)).
Definition T_is_zero : T -> bool := Ext_is_zero K2_is_zero.
Definition ev (x : R) : T -> C := Ext_ev (K2_ev x) Ci.

(** The constants [1 / sqrt 2], [i], [cos x] and [sin x]. *)
Definition of_K1 (a : K1) : T :=
  ((@pcons _ K1_is_zero a [], []), (@k0 _ K2_Scalar)).
Definition h : T := of_K1 (0%Q, 1%Q).
Definition i : T := (@k0 _ K2_Scalar, @k1 _ K2_Scalar).
Definition c1 : T := (([@k0 _ K1_Scalar; @k1 _ K1_Scalar], []), @k0 _ K2_Scalar).
Definition s1 : T := (([], [@k1 _ K1_Scalar]), @k0 _ K2_Scalar).

(** [(cos (2 y), sin (2 y))] from [(cos y, sin y)]. *)
Definition double (cs : T * T) : T * T :=
  let cy := fst cs in
  let sy := snd cs in
  (@kadd _ T_Scalar (@kmul _ T_Scalar cy cy) (@kopp _ T_Scalar (@kmul _ T_Scalar sy sy)),
   @kadd _ T_Scalar (@kmul _ T_Scalar sy cy) (@kmul _ T_Scalar sy cy)).

(** [(cos (y + x), sin (y + x))] from [(cos y, sin y)]. *)
Definition succ (cs : T * T) : T * T :=
  let cy := fst cs in
  let sy := snd cs in
  (@kadd _ T_Scalar (@kmul _ T_Scalar cy c1) (@kopp _ T_Scalar (@kmul _ T_Scalar sy s1)),
   @kadd _ T_Scalar (@kmul _ T_Scalar sy c1) (@kmul _ T_Scalar cy s1)).

(** [(cos (n x), sin (n x))] *)
Fixpoint cos_sin_pos (n : positive) : T * T :=
  match n with
  | xH => (c1, s1)
  | xO n' => double (cos_sin_pos n')
  | xI n' => succ (double (cos_sin_pos n'))
  end.

Definition cos_sin (n : Z) : T * T :=
  match n with
  | Z0 => (@k1 _ T_Scalar, @k0 _ T_Scalar)
  | Zpos p => cos_sin_pos p
  | Zneg p => let cs := cos_sin_pos p in (fst cs, @kopp _ T_Scalar (snd cs))
  end.

(** The entries of [a] and [b] are equal. *)
Definition eqb (a b : T) : bool :=
  T_is_zero (@kadd _ T_Scalar a (@kopp _ T_Scalar b)).

Fixpoint all2 {X : Type} (f : X -> X -> bool) (l l' : list X) : bool :=
  match l, l' with
  | [], [] => true
  | x :: t, y :: t' => f x y && all2 f t t'
  | _, _ => false
  end.

Definition meqb (a b : Matrix T) : bool := all2 (all2 eqb) a b.

(** A gate of a decomposition.  The number of a rotation is its half angle
    as a multiple of [x], that of a phase shift its angle. *)
Inductive Gate : Type :=
| GPauliX
| GHadamard
| GCNOT
| GRY (n : Z)
| GCRY (n : Z)
| GControlledPhaseShift (n : Z).

(** The matrix of a gate, symbolic and complex. *)
Definition gate_T (g : Gate) : Matrix T :=
  match g with
  | GPauliX => @PauliX_build _ T_Scalar
  | GHadamard => @Hadamard_build _ T_Scalar h
  | GCNOT => @CNOT_build _ T_Scalar
  | GRY n => @RY_build _ T_Scalar (fst (cos_sin n)) (snd (cos_sin n))
  | GCRY n => @CRY_build _ T_Scalar (fst (cos_sin n)) (snd (cos_sin n))
  | GControlledPhaseShift n =>
      @ControlledPhaseShift_build _ T_Scalar
        (@kadd _ T_Scalar (fst (cos_sin n)) (@kmul _ T_Scalar i (snd (cos_sin n))))
  end.

Definition gate_C (x : R) (g : Gate) : Matrix C :=
  match g with
  | GPauliX => PauliX_build
  | GHadamard => Hadamard_build (RtoC INV_SQRT2)
  | GCNOT => CNOT_build
  | GRY n => RY_build (RtoC (cos (IZR n * x))) (RtoC (sin (IZR n * x)))
  | GCRY n => CRY_build (RtoC (cos (IZR n * x))) (RtoC (sin (IZR n * x)))
  | GControlledPhaseShift n =>
      ControlledPhaseShift_build (cos (IZR n * x), sin (IZR n * x))
  end.

(** The matrix of a list of gates, computed symbolically. *)
Definition product_T (n : nat) (gs : list (Gate * list nat)) : Matrix T :=
  @apply_gates _ T_Scalar n (map (fun g => (gate_T (fst g), snd g)) gs)
    (@identity _ T_Scalar (2 ^ n)).

(** The gates of the decomposition of each class, with the positions of
    their wires in the register of the operator. *)
Definition decomposition_gates (k : QChemKind) : list (Gate * list nat) :=
  let X := GPauliX in
  let H := GHadamard in
  let CX := GCNOT in
  let RYp := GRY 1 in
  let RYm := GRY (-1) in
  match k with
  | SingleExcitation =>
      [ (CX, [0; 1]); (GCRY 8, [1; 0]); (CX, [0; 1]) ]
  | SingleExcitationMinus =>
      [ (X, [0]); (X, [1]); (GControlledPhaseShift (-8), [1; 0]);
        (X, [0]); (X, [1]); (GControlledPhaseShift (-8), [0; 1]);
        (CX, [0; 1]); (GCRY 8, [1; 0]); (CX, [0; 1]) ]
  | SingleExcitationPlus =>
      [ (X, [0]); (X, [1]); (GControlledPhaseShift 8, [1; 0]);
        (X, [0]); (X, [1]); (GControlledPhaseShift 8, [0; 1]);
        (CX, [0; 1]); (GCRY 8, [1; 0]); (CX, [0; 1]) ]
  | DoubleExcitation =>
      [ (CX, [2; 3]); (CX, [0; 2]); (H, [3]); (H, [0]); (CX, [2; 3]); (CX, [0; 1]);
        (RYp, [1]); (RYm, [0]); (CX, [0; 3]); (H, [3]); (CX, [3; 1]);
        (RYp, [1]); (RYm, [0]); (CX, [2; 1]); (CX, [2; 0]);
        (RYm, [1]); (RYp, [0]); (CX, [3; 1]); (H, [3]); (CX, [0; 3]);
        (RYm, [1]); (RYp, [0]); (CX, [0; 1]); (CX, [2; 0]); (H, [0]); (H, [3]);
        (CX, [0; 2]); (CX, [2; 3]) ]
  | OrbitalRotation =>
      [ (H, [3]); (H, [2]); (CX, [3; 1]); (CX, [2; 0]);
        (GRY 4, [3]); (GRY 4, [2]); (GRY 4, [1]); (GRY 4, [0]);
        (CX, [3; 1]); (CX, [2; 0]); (H, [3]); (H, [2]) ]
  | DoubleExcitationPlus | DoubleExcitationMinus => []
  end%nat.

(** The matrix of each class at the parameter [phi = 16 x], symbolically. *)
Definition target_T (k : QChemKind) : Matrix T :=
  let c := fst (cos_sin 8) in
  let s := snd (cos_sin 8) in
  let im := @kmul _ T_Scalar i s in
  let ep := @kadd _ T_Scalar c im in
  let em := @kadd _ T_Scalar c (@kopp _ T_Scalar im) in
  match k with
  | SingleExcitation => @SingleExcitation_build _ T_Scalar c s
  | SingleExcitationMinus => @SingleExcitationPhase_build _ T_Scalar c s em
  | SingleExcitationPlus => @SingleExcitationPhase_build _ T_Scalar c s ep
  | DoubleExcitation => @DoubleExcitation_build _ T_Scalar c s
  | DoubleExcitationPlus => @DoubleExcitationPhase_build _ T_Scalar c s ep
  | DoubleExcitationMinus => @DoubleExcitationPhase_build _ T_Scalar c s em
  | OrbitalRotation => @OrbitalRotation_build _ T_Scalar c s (@zeros _ T_Scalar 16)
  end.

End Sym.

(** An interpretation of symbolic scalars in the complex numbers. *)
Record Sound {A : Type} (SA : Scalar A) (isz : A -> bool) (f : A -> C) : Prop := {
  ev_k0 : f k0 = RtoC 0;
  ev_k1 : f k1 = RtoC 1;
  ev_kadd : forall a b, f (kadd a b) = Cadd (f a) (f b);
  ev_kmul : forall a b, f (kmul a b) = Cmul (f a) (f b);
  ev_kopp : forall a, f (kopp a) = Copp (f a);
  ev_isz : forall a, isz a = true -> f a = RtoC 0
}.


(* ================================================================== *)
(** ** [qchem_ops.py]: gradient recipes and sparse generators *)
(* ================================================================== *)

Module GradRecipe.

(** [c1], [c2], [a] and [b] of the four-term gradient recipe. *)
Definition c1 : R := INV_SQRT2 * (sqrt 2 + 1) / 4.
Definition c2 : R := INV_SQRT2 * (sqrt 2 - 1) / 4.
Definition a : R := PI / 2.
Definition b : R := 3 * PI / 2.

(** [four_term_grad_recipe]: for the one parameter, the terms
    [[coefficient, multiplier, shift]]. *)
Definition four_term_grad_recipe : list (list (R * R * R)) :=
  [ [ (c1, 1, a); (- c1, 1, - a); (- c2, 1, b); (c2, 1, - b) ] ].

(** [grad_recipe] of each class: three classes set it, the others keep the
    [None] of the base class. *)
Definition grad_recipe (k : QChemKind) : option (list (list (R * R * R))) :=
  match k with
  | SingleExcitation | DoubleExcitation | OrbitalRotation => Some four_term_grad_recipe
  | _ => None
  end.

(** Modelled from the spec: what a recipe stands for.  The derivative of [f]
    at [theta] is computed as the sum of [coefficient * f (multiplier * theta
    + shift)] over the terms; the code that evaluates recipes is not under
    [src/]. *)
Definition shift_rule (terms : list (R * R * R)) (f : R -> R) (theta : R) : R :=
  fold_right (fun t acc => fst (fst t) * f (snd (fst t) * theta + snd t) + acc) 0 terms.

(** The functions of [theta] with the frequencies 1/2 and 1:
    [k0 + k1 cos(theta/2) + k2 sin(theta/2) + k3 cos(theta) + k4 sin(theta)]. *)
Definition two_frequencies (k0 k1 k2 k3 k4 : R) (theta : R) : R :=
  k0 + k1 * cos (theta / 2) + k2 * sin (theta / 2) + k3 * cos theta + k4 * sin theta.

(** The rule the docstrings of the [Plus] and [Minus] classes give for them,
    [1/2 (f(U(phi + pi/2)) - f(U(phi - pi/2)))], as a recipe. *)
Definition two_term_grad_recipe : list (list (R * R * R)) :=
  [ [ (1 / 2, 1, PI / 2); (- (1 / 2), 1, - (PI / 2)) ] ].

(** One of the expectation values [f(U(phi))] of the recipes: the probability
    of finding the basis state [row] after the operator has acted on the
    basis state [col], the squared modulus of an entry of the matrix. *)
Definition probability (interface : Interface) (k : QChemKind) (row col : nat) (phi : R) : R :=
  match matrix interface k [phi] with
  | Ok U => Cnorm2 (entry U row col)
  | Raise _ => 0
  end.

End GradRecipe.

(** [m[i, j] = v], for [(i, j)] inside the array. *)
Definition set_item {K : Type} (m : Matrix K) (ij : nat * nat) (v : K) : Matrix K :=
  update (update (fun _ => v) (snd ij)) (fst ij) m.

(** [qml.SparseHamiltonian(H, wires)], an observable: the array and the wires
    it is on.  [coo_matrix] changes how the array is stored, not its entries;
    the array is kept as it is.  An observable is not one of the operators
    of [Tape]; its recording is left out. *)
Record SparseHamiltonian : Type :=
  mkSparseHamiltonian { sparse_matrix : Matrix C; sparse_wires : list Wire }.

(** [DoubleExcitationPlus.generator]: [G = -1 * np.eye(16)], four entries
    assigned in the order of the source, [H = -0.5 * G]. *)
Definition DoubleExcitationPlus_generator (self_wires : list Wire) : SparseHamiltonian :=
  let G := mscale (RtoC (-1)) (identity 16) in
  let G := set_item G (3, 3)%nat (RtoC 0) in
  let G := set_item G (12, 12)%nat (RtoC 0) in
  let G := set_item G (3, 12)%nat (Copp Ci) in
  let G := set_item G (12, 3)%nat Ci in
  let H := mscale (RtoC (-0.5)) G in
  mkSparseHamiltonian H self_wires.

(** [DoubleExcitationMinus.generator]: the same from [G = np.eye(16)]. *)
Definition DoubleExcitationMinus_generator (self_wires : list Wire) : SparseHamiltonian :=
  let G := identity 16 in
  let G := set_item G (3, 3)%nat (RtoC 0) in
  let G := set_item G (12, 12)%nat (RtoC 0) in
  let G := set_item G (3, 12)%nat (Copp Ci) in
  let G := set_item G (12, 3)%nat Ci in
  let H := mscale (RtoC (-0.5)) G in
  mkSparseHamiltonian H self_wires.

(** [cos(theta / 2) I + 2i sin(theta / 2) H], which is [exp(i theta H)] for
    an [H] with [H H = I / 4]. *)
Definition exp_i_theta (theta : R) (H : Matrix C) : Matrix C :=
  madd (mscale (cos_half theta) (identity (List.length H)))
       (mscale (Cmul (RtoC 2) (Cmul Ci (sin_half theta))) H).

(* ================================================================== *)
(** ** Polynomials in the cosines and sines of two half angles *)
(* ================================================================== *)

Module Sym2.

(** Polynomials with rational coefficients in four variables, one inside
    the other, and [a + b * i] over them: the entries of the product of two
    matrices of a class, as polynomials in the cosines and sines of the two
    half angles. *)
Definition V1 : Type := list Q.
Definition V1_Scalar : Scalar V1 := Sym.Poly_Scalar Sym.Q_Scalar Sym.Q_is_zero.
Definition V1_is_zero : V1 -> bool := Sym.Poly_is_zero Sym.Q_is_zero.

Definition V2 : Type := list V1.
Definition V2_Scalar : Scalar V2 := Sym.Poly_Scalar V1_Scalar V1_is_zero.
Definition V2_is_zero : V2 -> bool := Sym.Poly_is_zero V1_is_zero.

Definition V3 : Type := list V2.
Definition V3_Scalar : Scalar V3 := Sym.Poly_Scalar V2_Scalar V2_is_zero.
Definition V3_is_zero : V3 -> bool := Sym.Poly_is_zero V2_is_zero.

Definition V4 : Type := list V3.
Definition V4_Scalar : Scalar V4 := Sym.Poly_Scalar V3_Scalar V3_is_zero.
Definition V4_is_zero : V4 -> bool := Sym.Poly_is_zero V3_is_zero.

Definition T : Type := (V4 * V4)%type.
Definition T_Scalar : Scalar T := Sym.Ext_Scalar V4_Scalar (@kopp _ V4_Scalar (@k1 _ V4_Scalar)).
Definition T_is_zero : T -> bool := Sym.Ext_is_zero V4_is_zero.

(** The value of a polynomial at the point [(x1, x2, x3, x4)]. *)
Definition V4_ev (x1 x2 x3 x4 : R) : V4 -> C :=
  Sym.Poly_ev (Sym.Poly_ev (Sym.Poly_ev (Sym.Poly_ev Sym.Q_ev (RtoC x1)) (RtoC x2)) (RtoC x3))
    (RtoC x4).
Definition ev (x1 x2 x3 x4 : R) : T -> C := Sym.Ext_ev (V4_ev x1 x2 x3 x4) Ci.

(** The rational constants, [i] and the four variables. *)
Definition of_Q (q : Q) : T := ([[[[q]]]], []).
Definition i : T := (@k0 _ V4_Scalar, @k1 _ V4_Scalar).
Definition x1 : T := ([[[[0%Q; 1%Q]]]], []).
Definition x2 : T := ([[[[]; [1%Q]]]], []).
Definition x3 : T := ([[[]; [[1%Q]]]], []).
Definition x4 : T := ([[]; [[[1%Q]]]], []).

Definition eqb (a b : T) : bool :=
  T_is_zero (@kadd _ T_Scalar a (@kopp _ T_Scalar b)).

Definition meqb (a b : Matrix T) : bool := Sym.all2 (Sym.all2 eqb) a b.

(** The matrix of each class from the cosine [c] and the sine [s] of half
    its parameter. *)
Definition matrix_T (k : QChemKind) (c s : T) : Matrix T :=
  let im := @kmul _ T_Scalar i s in
  let ep := @kadd _ T_Scalar c im in
  let em := @kadd _ T_Scalar c (@kopp _ T_Scalar im) in
  match k with
  | SingleExcitation => @SingleExcitation_build _ T_Scalar c s
  | SingleExcitationMinus => @SingleExcitationPhase_build _ T_Scalar c s em
  | SingleExcitationPlus => @SingleExcitationPhase_build _ T_Scalar c s ep
  | DoubleExcitation => @DoubleExcitation_build _ T_Scalar c s
  | DoubleExcitationPlus => @DoubleExcitationPhase_build _ T_Scalar c s ep
  | DoubleExcitationMinus => @DoubleExcitationPhase_build _ T_Scalar c s em
  | OrbitalRotation => @OrbitalRotation_build _ T_Scalar c s (@zeros _ T_Scalar 16)
  end.

(** The cosine and the sine of the sum of the two half angles. *)
Definition cos_sum : T :=
  @kadd _ T_Scalar (@kmul _ T_Scalar x1 x3) (@kopp _ T_Scalar (@kmul _ T_Scalar x2 x4)).
Definition sin_sum : T :=
  @kadd _ T_Scalar (@kmul _ T_Scalar x2 x3) (@kmul _ T_Scalar x1 x4).

(** The array [H] of the sparse generators over the polynomials; [plus] for
    [DoubleExcitationPlus]. *)
Definition generator_T (plus : bool) : Matrix T :=
  let G := if plus
           then @mscale _ T_Scalar (@kopp _ T_Scalar (@k1 _ T_Scalar))
                  (@identity _ T_Scalar 16)
           else @identity _ T_Scalar 16 in
  let G := set_item G (3, 3)%nat (@k0 _ T_Scalar) in
  let G := set_item G (12, 12)%nat (@k0 _ T_Scalar) in
  let G := set_item G (3, 12)%nat (@kopp _ T_Scalar i) in
  let G := set_item G (12, 3)%nat i in
  @mscale _ T_Scalar (of_Q (- 1 # 2)) G.

End Sym2.


(* ================================================================== *)
(** * Properties *)
(* ================================================================== *)

(** ** Soundness of the symbolic scalars *)

Ltac list_eq :=
  repeat match goal with
    | |- cons _ _ = cons _ _ => apply (f_equal2 cons)
    | |- pair _ _ = pair _ _ => apply (f_equal2 pair)
    | |- nil = nil => reflexivity
    end.

Ltac C_unfold :=
  unfold Cadd, Cmul, Copp, Cconj, RtoC, Ci in *; cbn [fst snd] in *.

Ltac C_eq := intros; C_unfold; list_eq; ring.

Lemma C_ring_theory :
  ring_theory (RtoC 0) (RtoC 1) Cadd Cmul (fun a b => Cadd a (Copp b)) Copp eq.
Proof.
  constructor; try (intros [a1 a2]); try (intros [b1 b2]); try (intros [c1 c2]);
    try reflexivity; C_eq.
Qed.

Add Ring C_ring : C_ring_theory.

Lemma RtoC_add (a b : R) : RtoC (a + b) = Cadd (RtoC a) (RtoC b).
Proof. C_eq. Qed.
Lemma RtoC_mul (a b : R) : RtoC (a * b) = Cmul (RtoC a) (RtoC b).
Proof. C_eq. Qed.
Lemma RtoC_opp (a : R) : RtoC (- a) = Copp (RtoC a).
Proof. C_eq. Qed.

Lemma Q2R_Qred (a : Q) : Q2R (Qred a) = Q2R a.
Proof. apply Qeq_eqR, Qred_correct. Qed.

Lemma Q_sound : Sound Sym.Q_Scalar Sym.Q_is_zero Sym.Q_ev.
Proof.
  constructor; unfold Sym.Q_ev; cbn [k0 k1 kadd kmul kopp Sym.Q_Scalar]; intros.
  - f_equal. unfold Q2R; simpl; lra.
  - f_equal. unfold Q2R; simpl; lra.
  - rewrite Q2R_Qred, Q2R_plus. apply RtoC_add.
  - rewrite Q2R_Qred, Q2R_mult. apply RtoC_mul.
  - rewrite Q2R_Qred, Q2R_opp. apply RtoC_opp.
  - f_equal. apply Qeq_bool_eq in H. rewrite (Qeq_eqR _ _ H). unfold Q2R; simpl; lra.
Qed.

Section ExtensionSound.
Context {A : Type} (SA : Scalar A) (isz : A -> bool) (f : A -> C).
Hypothesis Hf : Sound SA isz f.

Lemma Ext_sound (d : A) (t : C) :
  Cmul t t = f d ->
  Sound (Sym.Ext_Scalar SA d) (Sym.Ext_is_zero isz) (Sym.Ext_ev f t).
Proof.
  intros Ht. destruct Hf as [H0 H1 Ha Hm Ho Hz].
  constructor; unfold Sym.Ext_ev;
    cbn [k0 k1 kadd kmul kopp Sym.Ext_Scalar fst snd]; intros;
    rewrite ?Ha, ?Hm, ?Ho, ?H0, ?H1; try ring.
  - rewrite <- Ht. ring.
  - unfold Sym.Ext_is_zero in H. apply andb_prop in H as [Hx Hy].
    rewrite (Hz _ Hx), (Hz _ Hy). ring.
Qed.

Variable x : C.

Lemma Poly_ev_nil : Sym.Poly_ev f x [] = RtoC 0.
Proof. reflexivity. Qed.

Lemma Poly_ev_cons (a : A) (p : list A) :
  Sym.Poly_ev f x (a :: p) = Cadd (f a) (Cmul x (Sym.Poly_ev f x p)).
Proof. reflexivity. Qed.

Lemma Poly_ev_pcons (a : A) (p : list A) :
  Sym.Poly_ev f x (Sym.pcons isz a p) = Cadd (f a) (Cmul x (Sym.Poly_ev f x p)).
Proof.
  unfold Sym.pcons. destruct (isz a) eqn:Ha; [destruct p|]; cbn [is_empty andb];
    rewrite ?Poly_ev_cons, ?Poly_ev_nil; try reflexivity.
  rewrite (ev_isz _ _ _ Hf _ Ha). ring.
Qed.

Lemma Poly_ev_padd (p q : list A) :
  Sym.Poly_ev f x (Sym.padd SA isz p q) = Cadd (Sym.Poly_ev f x p) (Sym.Poly_ev f x q).
Proof.
  revert q; induction p as [|a p IH]; intros [|b q]; cbn [Sym.padd];
    rewrite ?Poly_ev_pcons, ?IH, ?Poly_ev_cons, ?Poly_ev_nil, ?(ev_kadd _ _ _ Hf); ring.
Qed.

Lemma Poly_ev_pscale (a : A) (p : list A) :
  Sym.Poly_ev f x (Sym.pscale SA isz a p) = Cmul (f a) (Sym.Poly_ev f x p).
Proof.
  induction p as [|b p IH]; cbn [Sym.pscale fold_right].
  - rewrite Poly_ev_nil; ring.
  - fold (Sym.pscale SA isz a p).
    rewrite Poly_ev_pcons, IH, Poly_ev_cons, (ev_kmul _ _ _ Hf). ring.
Qed.

Lemma Poly_ev_pmul (p q : list A) :
  Sym.Poly_ev f x (Sym.pmul SA isz p q) = Cmul (Sym.Poly_ev f x p) (Sym.Poly_ev f x q).
Proof.
  induction p as [|a p IH]; cbn [Sym.pmul].
  - rewrite Poly_ev_nil; ring.
  - rewrite Poly_ev_padd, Poly_ev_pscale, Poly_ev_pcons, IH, Poly_ev_cons,
      (ev_k0 _ _ _ Hf). ring.
Qed.

Lemma Poly_sound :
  Sound (Sym.Poly_Scalar SA isz) (Sym.Poly_is_zero isz) (Sym.Poly_ev f x).
Proof.
  constructor; cbn [k0 k1 kadd kmul kopp Sym.Poly_Scalar]; intros.
  - reflexivity.
  - rewrite Poly_ev_pcons, Poly_ev_nil, (ev_k1 _ _ _ Hf). ring.
  - apply Poly_ev_padd.
  - apply Poly_ev_pmul.
  - rewrite Poly_ev_pscale, (ev_kopp _ _ _ Hf), (ev_k1 _ _ _ Hf). ring.
  - induction a as [|a p IH]; [reflexivity|].
    cbn [Sym.Poly_is_zero forallb] in H. apply andb_prop in H as [Ha Hp].
    rewrite Poly_ev_cons, (ev_isz _ _ _ Hf _ Ha), (IH Hp). ring.
Qed.

End ExtensionSound.

Lemma INV_SQRT2_sqr : INV_SQRT2 * INV_SQRT2 = 1 / 2.
Proof.
  unfold INV_SQRT2.
  assert (H2 : sqrt 2 * sqrt 2 = 2) by (apply sqrt_sqrt; lra).
  assert (Hn : sqrt 2 <> 0) by (intros E; rewrite E in H2; lra).
  replace (1 / sqrt 2 * (1 / sqrt 2)) with (1 / (sqrt 2 * sqrt 2)) by (field; assumption).
  rewrite H2. reflexivity.
Qed.

Lemma K1_sound : Sound Sym.K1_Scalar Sym.K1_is_zero Sym.K1_ev.
Proof.
  apply (Ext_sound _ _ _ Q_sound). rewrite <- RtoC_mul, INV_SQRT2_sqr.
  unfold Sym.Q_ev. apply f_equal. unfold Q2R; simpl. lra.
Qed.

Lemma P_sound (x : R) : Sound Sym.P_Scalar Sym.P_is_zero (Sym.P_ev x).
Proof. apply Poly_sound, K1_sound. Qed.

Lemma K2_sound (x : R) : Sound Sym.K2_Scalar Sym.K2_is_zero (Sym.K2_ev x).
Proof.
  apply (Ext_sound _ _ _ (P_sound x)).
  unfold Sym.P_ev, Sym.one_minus_c2. cbn [Sym.Poly_ev fold_right].
  rewrite (ev_kopp _ _ _ K1_sound), (ev_k1 _ _ _ K1_sound), (ev_k0 _ _ _ K1_sound).
  assert (Hs : sin x * sin x = 1 - cos x * cos x).
  { pose proof (sin2_cos2 x) as H. unfold Rsqr in H. lra. }
  rewrite <- RtoC_mul, Hs. C_eq.
Qed.

Lemma T_sound (x : R) : Sound Sym.T_Scalar Sym.T_is_zero (Sym.ev x).
Proof.
  apply (Ext_sound _ _ _ (K2_sound x)).
  rewrite (ev_kopp _ _ _ (K2_sound x)), (ev_k1 _ _ _ (K2_sound x)). C_eq.
Qed.

(** ** The array operations commute with an interpretation *)

Section ArrayHom.
Context {A : Type} (SA : Scalar A) (isz : A -> bool) (f : A -> C).
Hypothesis Hf : Sound SA isz f.

Let f0 : f k0 = k0 := ev_k0 _ _ _ Hf.
Let f1 : f k1 = k1 := ev_k1 _ _ _ Hf.
Let fadd : forall a b, f (kadd a b) = kadd (f a) (f b) := ev_kadd _ _ _ Hf.
Let fmul : forall a b, f (kmul a b) = kmul (f a) (f b) := ev_kmul _ _ _ Hf.
Let fopp : forall a, f (kopp a) = kopp (f a) := ev_kopp _ _ _ Hf.

Lemma hom_row (m : Matrix A) (i : nat) : nth i (map_matrix f m) [] = map f (nth i m []).
Proof. unfold map_matrix. change (@nil C) with (map f []) at 1. apply map_nth. Qed.

Lemma hom_nth (r : list A) (j : nat) : nth j (map f r) k0 = f (nth j r k0).
Proof. rewrite <- f0. apply map_nth. Qed.

Lemma hom_entry (m : Matrix A) (i j : nat) : entry (map_matrix f m) i j = f (entry m i j).
Proof. unfold entry. rewrite hom_row. apply hom_nth. Qed.

Lemma hom_expand_matrix (m : Matrix A) (pos : list nat) (n : nat) :
  expand_matrix (map_matrix f m) pos n = map_matrix f (expand_matrix m pos n).
Proof.
  unfold expand_matrix, map_matrix at 2. rewrite map_map. apply map_ext; intros i.
  rewrite map_map. apply map_ext; intros j.
  destruct (agree_outside n pos i j); [apply hom_entry | symmetry; apply f0].
Qed.

Lemma hom_ncols (m : Matrix A) : ncols (map_matrix f m) = ncols m.
Proof. unfold ncols. rewrite hom_row. apply length_map. Qed.

Lemma hom_column (m : Matrix A) (j : nat) : column (map_matrix f m) j = map f (column m j).
Proof.
  unfold column, map_matrix. rewrite !map_map. apply map_ext; intros r. apply hom_nth.
Qed.

Lemma hom_zip_with (g : A -> A -> A) (g' : C -> C -> C) (u v : list A) :
  (forall a b, f (g a b) = g' (f a) (f b)) ->
  zip_with g' (map f u) (map f v) = map f (zip_with g u v).
Proof.
  intros Hg. revert v; induction u as [|a u IH]; intros [|b v]; cbn; try reflexivity.
  now rewrite Hg, IH.
Qed.

Lemma hom_ksum (l : list A) : ksum (map f l) = f (ksum l).
Proof.
  induction l as [|a l IH]; cbn [map ksum fold_right].
  - symmetry; apply f0.
  - fold (ksum l). fold (ksum (map f l)). now rewrite IH, fadd.
Qed.

Lemma hom_dot (u v : list A) : dot (map f u) (map f v) = f (dot u v).
Proof.
  unfold dot. rewrite (hom_zip_with kmul kmul) by apply fmul. apply hom_ksum.
Qed.

Lemma hom_mmul (a b : Matrix A) : mmul (map_matrix f a) (map_matrix f b) = map_matrix f (mmul a b).
Proof.
  unfold mmul. rewrite hom_ncols. unfold map_matrix. rewrite !map_map.
  apply map_ext; intros r. rewrite map_map. apply map_ext; intros j.
  fold (map_matrix f b). rewrite hom_column. apply hom_dot.
Qed.

Lemma hom_unit_row (n i : nat) (a : A) : map f (unit_row n i a) = unit_row n i (f a).
Proof. unfold unit_row. now rewrite map_app, map_cons, !map_repeat, f0. Qed.

Lemma hom_diag_from (n i : nat) (d : list A) :
  map_matrix f (diag_from n i d) = diag_from n i (map f d).
Proof.
  revert i; induction d as [|a d IH]; intros i; cbn [diag_from map map_matrix]; [reflexivity|].
  rewrite hom_unit_row. f_equal. apply IH.
Qed.

Lemma hom_diag (d : list A) : map_matrix f (diag d) = diag (map f d).
Proof. unfold diag. now rewrite hom_diag_from, length_map. Qed.

Lemma hom_identity (n : nat) : map_matrix f (identity n) = identity n.
Proof. unfold identity. now rewrite hom_diag, map_repeat, f1. Qed.

Lemma hom_madd (a b : Matrix A) : map_matrix f (madd a b) = madd (map_matrix f a) (map_matrix f b).
Proof.
  unfold madd, map_matrix. revert b; induction a as [|r a IH]; intros [|r' b]; cbn; try reflexivity.
  rewrite IH. f_equal. symmetry. now apply hom_zip_with.
Qed.

Lemma hom_mscale (s : A) (m : Matrix A) : map_matrix f (mscale s m) = mscale (f s) (map_matrix f m).
Proof.
  unfold mscale, map_matrix. rewrite !map_map. apply map_ext; intros r.
  rewrite !map_map. apply map_ext; intros a. apply fmul.
Qed.

Lemma hom_flip_rows (m : Matrix A) : map_matrix f (flip_rows m) = flip_rows (map_matrix f m).
Proof. unfold flip_rows, map_matrix. apply map_rev. Qed.

Lemma hom_update {X Y : Type} (g : X -> Y) (u : X -> X) (u' : Y -> Y) (i : nat) (l : list X) :
  (forall a, g (u a) = u' (g a)) ->
  map g (update u i l) = update u' i (map g l).
Proof.
  intros Hu. revert i; induction l as [|a l IH]; intros [|i]; cbn; try reflexivity.
  - now rewrite Hu.
  - now rewrite IH.
Qed.

Lemma hom_scatter_element_add (m : Matrix A) (ij : nat * nat) (v : A) :
  map_matrix f (scatter_element_add m ij v) = scatter_element_add (map_matrix f m) ij (f v).
Proof.
  unfold scatter_element_add, map_matrix. apply hom_update; intros r.
  apply hom_update; intros a. apply fadd.
Qed.

Lemma hom_apply_gates (n : nat) (gs : list (Matrix A * list nat)) (acc : Matrix A) :
  apply_gates n (map (fun g => (map_matrix f (fst g), snd g)) gs) (map_matrix f acc)
  = map_matrix f (apply_gates n gs acc).
Proof.
  revert acc; induction gs as [|[m pos] gs IH]; intros acc; cbn [apply_gates map fst snd].
  - reflexivity.
  - rewrite hom_expand_matrix, hom_mmul. apply IH.
Qed.

End ArrayHom.

Section BuilderHom.
Context {A : Type} (SA : Scalar A) (isz : A -> bool) (f : A -> C).
Hypothesis Hf : Sound SA isz f.

Ltac hom_entries :=
  cbn [map map_matrix];
  rewrite ?(ev_kmul _ _ _ Hf), ?(ev_kopp _ _ _ Hf), ?(ev_kadd _ _ _ Hf),
    ?(ev_k0 _ _ _ Hf), ?(ev_k1 _ _ _ Hf);
  reflexivity.

Lemma hom_off_diag : map_matrix f off_diag = off_diag.
Proof.
  unfold off_diag. rewrite (hom_flip_rows f), (hom_diag _ _ _ Hf). hom_entries.
Qed.

Lemma hom_SingleExcitation_build (c s : A) :
  map_matrix f (SingleExcitation_build c s) = SingleExcitation_build (f c) (f s).
Proof.
  unfold SingleExcitation_build.
  rewrite (hom_madd _ _ _ Hf), (hom_mscale _ _ _ Hf), (hom_diag _ _ _ Hf), hom_off_diag.
  hom_entries.
Qed.

Lemma hom_SingleExcitationPhase_build (c s e : A) :
  map_matrix f (SingleExcitationPhase_build c s e) = SingleExcitationPhase_build (f c) (f s) (f e).
Proof.
  unfold SingleExcitationPhase_build.
  rewrite !(hom_madd _ _ _ Hf), (hom_mscale _ _ _ Hf), !(hom_diag _ _ _ Hf), hom_off_diag.
  hom_entries.
Qed.

Lemma hom_DoubleExcitation_build (c s : A) :
  map_matrix f (DoubleExcitation_build c s) = DoubleExcitation_build (f c) (f s).
Proof.
  unfold DoubleExcitation_build.
  rewrite !(hom_scatter_element_add _ _ _ Hf), (hom_diag _ _ _ Hf).
  rewrite !map_app, !map_repeat. hom_entries.
Qed.

Lemma hom_DoubleExcitationPhase_build (c s e : A) :
  map_matrix f (DoubleExcitationPhase_build c s e) = DoubleExcitationPhase_build (f c) (f s) (f e).
Proof.
  unfold DoubleExcitationPhase_build.
  rewrite !(hom_scatter_element_add _ _ _ Hf), (hom_diag _ _ _ Hf).
  rewrite !map_app, !map_repeat. hom_entries.
Qed.

Lemma hom_OrbitalRotation_build (c s : A) (z : list A) :
  map_matrix f (OrbitalRotation_build c s z) = OrbitalRotation_build (f c) (f s) (map f z).
Proof.
  unfold OrbitalRotation_build, kpow2, stack.
  rewrite (hom_madd _ _ _ Hf), (hom_diag _ _ _ Hf). hom_entries.
Qed.

Lemma hom_zeros (n : nat) : map f (zeros n) = zeros n.
Proof. unfold zeros. now rewrite map_repeat, (ev_k0 _ _ _ Hf). Qed.

Lemma hom_PauliX_build : map_matrix f PauliX_build = PauliX_build.
Proof. unfold PauliX_build. hom_entries. Qed.

Lemma hom_Hadamard_build (h : A) : map_matrix f (Hadamard_build h) = Hadamard_build (f h).
Proof. unfold Hadamard_build. hom_entries. Qed.

Lemma hom_CNOT_build : map_matrix f CNOT_build = CNOT_build.
Proof. unfold CNOT_build. hom_entries. Qed.

Lemma hom_RY_build (c s : A) : map_matrix f (RY_build c s) = RY_build (f c) (f s).
Proof. unfold RY_build. hom_entries. Qed.

Lemma hom_CRY_build (c s : A) : map_matrix f (CRY_build c s) = CRY_build (f c) (f s).
Proof. unfold CRY_build. hom_entries. Qed.

Lemma hom_ControlledPhaseShift_build (e : A) :
  map_matrix f (ControlledPhaseShift_build e) = ControlledPhaseShift_build (f e).
Proof. unfold ControlledPhaseShift_build. rewrite (hom_diag _ _ _ Hf). hom_entries. Qed.

End BuilderHom.

(** *** The symbolic constants *)

Lemma ev_c1 (x : R) : Sym.ev x Sym.c1 = RtoC (cos x).
Proof.
  unfold Sym.ev, Sym.c1, Sym.Ext_ev; cbn [fst snd].
  rewrite (ev_k0 _ _ _ (K2_sound x)).
  unfold Sym.K2_ev, Sym.Ext_ev; cbn [fst snd].
  unfold Sym.P_ev. rewrite !Poly_ev_cons, !Poly_ev_nil.
  rewrite (ev_k0 _ _ _ K1_sound), (ev_k1 _ _ _ K1_sound). ring.
Qed.

Lemma ev_s1 (x : R) : Sym.ev x Sym.s1 = RtoC (sin x).
Proof.
  unfold Sym.ev, Sym.s1, Sym.Ext_ev; cbn [fst snd].
  rewrite (ev_k0 _ _ _ (K2_sound x)).
  unfold Sym.K2_ev, Sym.Ext_ev; cbn [fst snd].
  unfold Sym.P_ev. rewrite !Poly_ev_cons, !Poly_ev_nil.
  rewrite (ev_k1 _ _ _ K1_sound). ring.
Qed.

Lemma ev_i (x : R) : Sym.ev x Sym.i = Ci.
Proof.
  unfold Sym.ev, Sym.i, Sym.Ext_ev; cbn [fst snd].
  rewrite (ev_k0 _ _ _ (K2_sound x)), (ev_k1 _ _ _ (K2_sound x)). ring.
Qed.

Lemma ev_h (x : R) : Sym.ev x Sym.h = RtoC INV_SQRT2.
Proof.
  unfold Sym.ev, Sym.h, Sym.of_K1, Sym.Ext_ev; cbn [fst snd].
  rewrite (ev_k0 _ _ _ (K2_sound x)).
  unfold Sym.K2_ev, Sym.Ext_ev; cbn [fst snd].
  unfold Sym.P_ev. rewrite (Poly_ev_pcons _ _ _ K1_sound), !Poly_ev_nil.
  unfold Sym.K1_ev, Sym.Ext_ev, Sym.Q_ev; cbn [fst snd].
  replace (Q2R 0) with 0 by (unfold Q2R; simpl; lra).
  replace (Q2R 1) with 1 by (unfold Q2R; simpl; lra).
  C_eq.
Qed.

Lemma cos_sin_pos_sound (x : R) (p : positive) :
  Sym.ev x (fst (Sym.cos_sin_pos p)) = RtoC (cos (IZR (Zpos p) * x)) /\
  Sym.ev x (snd (Sym.cos_sin_pos p)) = RtoC (sin (IZR (Zpos p) * x)).
Proof.
  pose proof (T_sound x) as HT.
  assert (Hd : forall y cs,
             Sym.ev x (fst cs) = RtoC (cos y) -> Sym.ev x (snd cs) = RtoC (sin y) ->
             Sym.ev x (fst (Sym.double cs)) = RtoC (cos (2 * y)) /\
             Sym.ev x (snd (Sym.double cs)) = RtoC (sin (2 * y))).
  { intros y cs Hc Hs. unfold Sym.double; cbn [fst snd].
    rewrite !(ev_kadd _ _ _ HT), ?(ev_kopp _ _ _ HT), !(ev_kmul _ _ _ HT), Hc, Hs.
    rewrite cos_2a, sin_2a. split; C_eq. }
  assert (Hs1 : forall y cs,
             Sym.ev x (fst cs) = RtoC (cos y) -> Sym.ev x (snd cs) = RtoC (sin y) ->
             Sym.ev x (fst (Sym.succ cs)) = RtoC (cos (y + x)) /\
             Sym.ev x (snd (Sym.succ cs)) = RtoC (sin (y + x))).
  { intros y cs Hc Hs. unfold Sym.succ; cbn [fst snd].
    rewrite !(ev_kadd _ _ _ HT), ?(ev_kopp _ _ _ HT), !(ev_kmul _ _ _ HT), Hc, Hs,
      ev_c1, ev_s1.
    rewrite cos_plus, sin_plus. split; C_eq. }
  induction p as [p IH | p IH | ]; cbn [Sym.cos_sin_pos].
  - destruct IH as [Hc Hs]. destruct (Hd _ _ Hc Hs) as [Hc2 Hs2].
    destruct (Hs1 _ _ Hc2 Hs2) as [Hc3 Hs3].
    replace (IZR (Z.pos p~1) * x) with (2 * (IZR (Z.pos p) * x) + x); [now split|].
    change (Z.pos p~1) with (2 * Z.pos p + 1)%Z. rewrite plus_IZR, mult_IZR. ring.
  - destruct IH as [Hc Hs]. destruct (Hd _ _ Hc Hs) as [Hc2 Hs2].
    replace (IZR (Z.pos p~0) * x) with (2 * (IZR (Z.pos p) * x)); [now split|].
    change (Z.pos p~0) with (2 * Z.pos p)%Z. rewrite mult_IZR. ring.
  - replace (IZR 1 * x) with x by ring. split; [apply ev_c1 | apply ev_s1].
Qed.

Lemma cos_sin_sound (x : R) (n : Z) :
  Sym.ev x (fst (Sym.cos_sin n)) = RtoC (cos (IZR n * x)) /\
  Sym.ev x (snd (Sym.cos_sin n)) = RtoC (sin (IZR n * x)).
Proof.
  pose proof (T_sound x) as HT.
  destruct n as [|p|p]; cbn [Sym.cos_sin fst snd].
  - rewrite (ev_k1 _ _ _ HT), (ev_k0 _ _ _ HT).
    replace (IZR 0 * x) with 0 by ring. now rewrite cos_0, sin_0.
  - apply cos_sin_pos_sound.
  - destruct (cos_sin_pos_sound x p) as [Hc Hs].
    replace (IZR (Z.neg p) * x) with (- (IZR (Z.pos p) * x)).
    + rewrite cos_neg, sin_neg, (ev_kopp _ _ _ HT), Hc, Hs. split; [reflexivity | C_eq].
    + change (Z.neg p) with (- Z.pos p)%Z. rewrite opp_IZR. ring.
Qed.

Lemma gate_sound (x : R) (g : Sym.Gate) :
  map_matrix (Sym.ev x) (Sym.gate_T g) = Sym.gate_C x g.
Proof.
  pose proof (T_sound x) as HT.
  destruct g as [ | | | n | n | n]; cbn [Sym.gate_T Sym.gate_C].
  - apply (hom_PauliX_build _ _ _ HT).
  - rewrite (hom_Hadamard_build _ _ _ HT), ev_h. reflexivity.
  - apply (hom_CNOT_build _ _ _ HT).
  - destruct (cos_sin_sound x n) as [Hc Hs].
    now rewrite (hom_RY_build _ _ _ HT), Hc, Hs.
  - destruct (cos_sin_sound x n) as [Hc Hs].
    now rewrite (hom_CRY_build _ _ _ HT), Hc, Hs.
  - destruct (cos_sin_sound x n) as [Hc Hs].
    rewrite (hom_ControlledPhaseShift_build _ _ _ HT).
    rewrite (ev_kadd _ _ _ HT), (ev_kmul _ _ _ HT), ev_i, Hc, Hs.
    f_equal. C_eq.
Qed.

Lemma eqb_sound (x : R) (a b : Sym.T) : Sym.eqb a b = true -> Sym.ev x a = Sym.ev x b.
Proof.
  pose proof (T_sound x) as HT. unfold Sym.eqb. intros H.
  apply (ev_isz _ _ _ HT) in H. rewrite (ev_kadd _ _ _ HT), (ev_kopp _ _ _ HT) in H.
  transitivity (Cadd (Cadd (Sym.ev x a) (Copp (Sym.ev x b))) (Sym.ev x b)); [ring|].
  rewrite H. ring.
Qed.

Lemma all2_sound {X Y : Type} (e : X -> X -> bool) (g : X -> Y) (l l' : list X) :
  (forall a b, e a b = true -> g a = g b) ->
  Sym.all2 e l l' = true -> map g l = map g l'.
Proof.
  intros He. revert l'; induction l as [|a l IH]; intros [|b l'] H; cbn in *;
    try discriminate; try reflexivity.
  apply andb_prop in H as [Hab Hl]. now rewrite (He _ _ Hab), (IH _ Hl).
Qed.

Lemma meqb_sound (x : R) (a b : Matrix Sym.T) :
  Sym.meqb a b = true -> map_matrix (Sym.ev x) a = map_matrix (Sym.ev x) b.
Proof.
  unfold Sym.meqb, map_matrix. apply all2_sound. intros r r'. apply all2_sound.
  apply eqb_sound.
Qed.

Lemma product_sound (x : R) (n : nat) (gs : list (Sym.Gate * list nat))
  (target : Matrix Sym.T) :
  Sym.meqb (Sym.product_T n gs) target = true ->
  apply_gates n (map (fun g => (Sym.gate_C x (fst g), snd g)) gs) (identity (2 ^ n))
  = map_matrix (Sym.ev x) target.
Proof.
  intros H. apply (meqb_sound x) in H. rewrite <- H. unfold Sym.product_T.
  rewrite <- (hom_apply_gates _ _ _ (T_sound x)), (hom_identity _ _ _ (T_sound x)).
  rewrite map_map. f_equal. apply map_ext; intros [g pos]; cbn [fst snd].
  now rewrite gate_sound.
Qed.

(** ** The decompositions, computed symbolically *)

Lemma decomposition_check (k : QChemKind) :
  has_compute_decomposition k = true ->
  Sym.meqb (Sym.product_T (num_wires k) (Sym.decomposition_gates k)) (Sym.target_T k) = true.
Proof. destruct k; intros H; try discriminate H; vm_compute; reflexivity. Qed.

Lemma Cexp_i (t : R) : Cexp (Cmul Ci (RtoC t)) = (cos t, sin t).
Proof.
  unfold Cexp, Cmul, Ci, RtoC; cbn [fst snd].
  replace (0 * t - 1 * 0) with 0 by ring. replace (0 * 0 + 1 * t) with t by ring.
  rewrite exp_0. list_eq; ring.
Qed.

Ltac gates_eq :=
  repeat match goal with
    | |- Some _ = Some _ => apply f_equal
    | |- cons _ _ = cons _ _ => apply (f_equal2 cons)
    | |- pair _ _ = pair _ _ => apply (f_equal2 pair)
    | |- RY_build _ _ = RY_build _ _ => apply (f_equal2 RY_build)
    | |- CRY_build _ _ = CRY_build _ _ => apply (f_equal2 CRY_build)
    | |- ControlledPhaseShift_build _ = ControlledPhaseShift_build _ => apply f_equal
    | |- RtoC _ = RtoC _ => apply f_equal
    | |- cos _ = cos _ => apply f_equal
    | |- sin _ = sin _ => apply f_equal
    | |- ?a = ?a => reflexivity
    end.

Lemma index_of_2 (w0 w1 : Wire) :
  NoDup [w0; w1] ->
  index_of w0 [w0; w1] = Some 0%nat /\ index_of w1 [w0; w1] = Some 1%nat.
Proof.
  intros Hn. inversion Hn as [|? ? Hx _]; subst.
  assert (H01 : (w0 =? w1)%Z = false) by (apply Z.eqb_neq; intros E; apply Hx; rewrite E; cbn; auto).
  cbn [index_of]. rewrite !Z.eqb_refl, ?H01. cbn. auto.
Qed.

Lemma index_of_4 (w0 w1 w2 w3 : Wire) :
  NoDup [w0; w1; w2; w3] ->
  let order := [w0; w1; w2; w3] in
  index_of w0 order = Some 0%nat /\ index_of w1 order = Some 1%nat /\
  index_of w2 order = Some 2%nat /\ index_of w3 order = Some 3%nat.
Proof.
  intros Hn order. subst order.
  inversion Hn as [|? ? H0 Hn1]; subst. inversion Hn1 as [|? ? H1 Hn2]; subst.
  inversion Hn2 as [|? ? H2 _]; subst. cbn [In] in *.
  assert (H01 : (w0 =? w1)%Z = false) by (apply Z.eqb_neq; intros E; apply H0; rewrite E; cbn; auto).
  assert (H02 : (w0 =? w2)%Z = false) by (apply Z.eqb_neq; intros E; apply H0; rewrite E; cbn; auto).
  assert (H03 : (w0 =? w3)%Z = false) by (apply Z.eqb_neq; intros E; apply H0; rewrite E; cbn; auto).
  assert (H12 : (w1 =? w2)%Z = false) by (apply Z.eqb_neq; intros E; apply H1; rewrite E; cbn; auto).
  assert (H13 : (w1 =? w3)%Z = false) by (apply Z.eqb_neq; intros E; apply H1; rewrite E; cbn; auto).
  assert (H23 : (w2 =? w3)%Z = false) by (apply Z.eqb_neq; intros E; apply H2; rewrite E; cbn; auto).
  cbn [index_of]. rewrite !Z.eqb_refl, ?H01, ?H02, ?H03, ?H12, ?H13, ?H23. cbn. auto.
Qed.

Lemma mscale_one (m : Matrix C) : mscale (RtoC 1) m = m.
Proof.
  unfold mscale. rewrite <- (map_id m) at 2. apply map_ext; intros r.
  rewrite <- (map_id r) at 2. apply map_ext; intros [a b].
  cbn [kmul C_Scalar]. C_eq.
Qed.

Lemma equal_up_to_phase_refl (m : Matrix C) : equal_up_to_phase m m.
Proof.
  exists (RtoC 1). split; [unfold Cnorm2, RtoC; cbn [fst snd]; ring | symmetry; apply mscale_one].
Qed.

Lemma matrix_interface (i : Interface) (k : QChemKind) (ps : list R) :
  matrix i k ps = matrix numpy k ps.
Proof. destruct ps; [reflexivity|]. destruct k, i; reflexivity. Qed.

Lemma exp_minus_eq (theta : R) : exp_minus theta = (cos (theta / 2), - sin (theta / 2)).
Proof.
  unfold exp_minus, Cexp, Cdiv, Cmul, Copp, Ci, RtoC; cbn [fst snd].
  match goal with
  | |- (exp ?a * cos ?b, _) = _ =>
      replace a with 0 by field; replace b with (- (theta / 2)) by field
  end.
  rewrite exp_0, cos_neg, sin_neg. list_eq; ring.
Qed.

Lemma exp_plus_eq (theta : R) : exp_plus theta = (cos (theta / 2), sin (theta / 2)).
Proof.
  unfold exp_plus, Cexp, Cdiv, Cmul, Copp, Ci, RtoC; cbn [fst snd].
  match goal with
  | |- (exp ?a * cos ?b, _) = _ =>
      replace a with 0 by field; replace b with (theta / 2) by field
  end.
  rewrite exp_0. list_eq; ring.
Qed.

(** The matrix of the source is the interpretation of the symbolic one, at
    [x = phi / 16]. *)
Lemma matrix_target (i : Interface) (k : QChemKind) (phi : R) :
  matrix i k [phi] = Ok (map_matrix (Sym.ev (phi / 16)) (Sym.target_T k)).
Proof.
  rewrite matrix_interface. set (x := phi / 16).
  pose proof (T_sound x) as HT.
  destruct (cos_sin_sound x 8) as [Hc Hs].
  assert (Hx : IZR 8 * x = phi / 2) by (unfold x; lra). rewrite Hx in Hc, Hs.
  unfold matrix. f_equal. unfold Sym.target_T.
  destruct k;
    unfold SingleExcitation_matrix, SingleExcitationMinus_matrix, SingleExcitationPlus_matrix,
      DoubleExcitation_matrix, DoubleExcitationPlus_matrix, DoubleExcitationMinus_matrix,
      OrbitalRotation_matrix, cos_half, sin_half, cast_like, is_tensorflow, is_torch;
    cbv zeta;
    rewrite ?(hom_SingleExcitation_build _ _ _ HT), ?(hom_SingleExcitationPhase_build _ _ _ HT),
      ?(hom_DoubleExcitation_build _ _ _ HT), ?(hom_DoubleExcitationPhase_build _ _ _ HT), ?(hom_OrbitalRotation_build _ _ _ HT),
      ?(hom_zeros _ _ _ HT),
      ?(ev_kadd _ _ _ HT), ?(ev_kopp _ _ _ HT), ?(ev_kmul _ _ _ HT), ?ev_i, ?Hc, ?Hs,
      ?exp_minus_eq, ?exp_plus_eq;
    try reflexivity.
  all: try (f_equal; C_eq).
Qed.

Lemma decomposition_placed (k : QChemKind) (phi : R) (ws : list Wire) (q : QueuingContext) :
  has_compute_decomposition k = true ->
  List.length ws = num_wires k ->
  NoDup ws ->
  exists ops,
    fst (compute_decomposition k phi ws q) = Ok ops /\
    placed_gates ws ops
    = Some (map (fun g => (Sym.gate_C (phi / 16) (fst g), snd g)) (Sym.decomposition_gates k)).
Proof.
  intros Hk Hlen Hnd.
  destruct k; try discriminate Hk; cbn [num_wires] in Hlen;
    (destruct ws as [|w0 [|w1 [|w2 [|w3 [|w4 ws]]]]]; try discriminate Hlen).
  1-3: destruct (index_of_2 _ _ Hnd) as [I0 I1].
  4-5: destruct (index_of_4 _ _ _ _ Hnd) as (I0 & I1 & I2 & I3).
  all: eexists; split; [reflexivity|].
  all: cbn [placed_gates placed_gate gate_matrix wires positions];
    rewrite ?I0, ?I1, ?I2, ?I3;
    cbn [Sym.decomposition_gates map fst snd Sym.gate_C];
    rewrite ?Cexp_i; unfold cos_half, sin_half; gates_eq; lra.
Qed.

(** ** The recording context *)

Lemma append_ops_nil (q : QueuingContext) : append_ops [] q = q.
Proof.
  destruct q as [[|t rest] susp]; unfold append_ops; simpl; [reflexivity|].
  now rewrite app_nil_r.
Qed.

Lemma append_ops_app (l l' : list Operator) (q : QueuingContext) :
  append_ops l' (append_ops l q) = append_ops (l ++ l') q.
Proof.
  destruct q as [[|t rest] susp]; unfold append_ops; simpl; [reflexivity|].
  now rewrite app_assoc.
Qed.

Lemma sequence_construct (f : Operator -> Operator) (ops : list Operator) (q : QueuingContext) :
  sequence (map (fun op => construct (f op)) ops) q
  = (Ok (map f ops), append_ops (map f ops) q).
Proof.
  revert q; induction ops as [|a ops IH]; intros q; simpl.
  - unfold ret. now rewrite append_ops_nil.
  - unfold bind at 1. unfold construct at 1.
    unfold bind at 1. rewrite IH. unfold ret.
    rewrite append_ops_app. reflexivity.
Qed.

Lemma procedure_emits (ops : list Operator) (res : PyValue) :
  emits (procedure ops res) ops res.
Proof.
  split; [reflexivity|]. intros q. unfold procedure, call, bind.
  rewrite <- (map_id ops) at 1. rewrite map_map.
  rewrite (sequence_construct (fun x => x)). rewrite map_id. reflexivity.
Qed.

Lemma operator_class_call_emits (op : Operator) :
  emits (operator_class_call op) [op] (VOperator op).
Proof. split; [reflexivity|]. intros q. reflexivity. Qed.

(** Recording inside the transform: the ambient context is put aside, the
    procedure runs on a fresh tape, and the context comes back as it was. *)
Lemma with_stop_recording_tape_emits (fn : PyValue) (ops : list Operator) (res : PyValue)
  (q : QueuingContext) :
  emits fn ops res ->
  with_stop_recording_tape (call fn) q = (Ok (res, ops), q).
Proof.
  intros [_ Hfn]. destruct q as [act susp].
  unfold with_stop_recording_tape, bind, finally, suspend_enter, tape_enter, tape_exit,
    suspend_exit, ret; simpl.
  rewrite Hfn. unfold append_ops; simpl. reflexivity.
Qed.

Lemma single_or_list_spec (l : list Operator) (q : QueuingContext) :
  (if Nat.eqb (List.length l) 1
   then a <- getitem l 0 ;; ret (VOperator a)
   else ret (VList l)) q = (Ok (single_or_list l), q).
Proof. destruct l as [|a [|b l]]; reflexivity. Qed.

Lemma wrapper_emitted (fn : PyValue) (ops : list Operator) (res : PyValue)
  (q : QueuingContext) :
  emits fn ops res -> ops <> [] ->
  wrapper fn q = (Ok (single_or_list (map Adjoint (rev ops))),
                  append_ops (map Adjoint (rev ops)) q).
Proof.
  intros Hfn Hne. unfold wrapper. unfold bind at 1.
  rewrite (with_stop_recording_tape_emits _ _ _ _ Hfn). simpl fst; simpl snd.
  destruct ops as [|a ops]; [congruence|]. cbn [is_empty].
  unfold bind at 1. unfold ret at 1. unfold bind at 1.
  rewrite sequence_construct. apply single_or_list_spec.
Qed.

Lemma wrapper_returned_tape (fn : PyValue) (t : Tape) (q : QueuingContext) :
  emits fn [] (VTape t) ->
  wrapper fn q = (Ok (single_or_list (map Adjoint (rev t))),
                  append_ops (map Adjoint (rev t)) q).
Proof.
  intros Hfn. unfold wrapper. unfold bind at 1.
  rewrite (with_stop_recording_tape_emits _ _ _ _ Hfn). simpl fst; simpl snd.
  cbn [is_empty operations_of].
  unfold bind at 1. unfold ret at 1. unfold bind at 1.
  rewrite sequence_construct. apply single_or_list_spec.
Qed.

Lemma wrapper_is_procedure (fn : PyValue) (ops : list Operator) (res : PyValue) :
  emits fn ops res -> ops <> [] ->
  emits (VFunction (wrapper fn)) (map Adjoint (rev ops))
        (single_or_list (map Adjoint (rev ops))).
Proof.
  intros Hfn Hne. split; [reflexivity|]. intros q. now apply (wrapper_emitted fn ops res).
Qed.

(* ================================================================== *)
(** * The operators and the transform: main results *)
(* ================================================================== *)

(* ================================================================== *)
(** ** The operators of [qchem_ops.py] *)
(* ================================================================== *)

Lemma cos_half_neg (theta : R) : cos (- theta / 2) = cos (theta / 2).
Proof. replace (- theta / 2) with (- (theta / 2)) by lra. apply cos_neg. Qed.

Lemma sin_half_neg (theta : R) : sin (- theta / 2) = - sin (theta / 2).
Proof. replace (- theta / 2) with (- (theta / 2)) by lra. apply sin_neg. Qed.

Ltac unfold_arrays :=
  cbv -[Rplus Rmult Ropp Rminus Rdiv Rinv IZR cos sin exp PI].

Lemma matrix_neg (i : Interface) (k : QChemKind) (phi : R) :
  exists U, matrix i k [phi] = Ok U /\ matrix i k [- phi] = Ok (conjugate_transpose U).
Proof.
  rewrite !(matrix_interface i).
  eexists; split; [reflexivity|]. unfold matrix. f_equal.
  destruct k;
  unfold SingleExcitation_matrix, SingleExcitationMinus_matrix, SingleExcitationPlus_matrix,
    DoubleExcitation_matrix, DoubleExcitationPlus_matrix, DoubleExcitationMinus_matrix,
    OrbitalRotation_matrix, cos_half, sin_half, cast_like;
  rewrite ?exp_minus_eq, ?exp_plus_eq, ?cos_half_neg, ?sin_half_neg;
  generalize (cos (phi / 2)) (sin (phi / 2)); intros c s;
  unfold_arrays; list_eq; ring.
Qed.

(** C5. Every class of [qchem_ops.py] declares [adjoint()]; for every real
    parameter [phi] the adjoint has the parameter [-phi], and the matrix at
    the parameters of the adjoint is the conjugate transpose of the matrix at
    the parameters of the operator. *)
Theorem adjoint_matrix_is_conjugate_transpose (i : Interface) (k : QChemKind) (phi : R)
  (ws : list Wire) (q : QueuingContext) :
  defines_adjoint k = true /\
  exists adj U,
    adjoint_method (Op k [phi] ws) = Some (QChem_adjoint k [phi] ws) /\
    QChem_adjoint k [phi] ws q = (Ok adj, append_ops [adj] q) /\
    parameters adj = [- phi] /\
    matrix i k (parameters (Op k [phi] ws)) = Ok U /\
    matrix i k (parameters adj) = Ok (conjugate_transpose U).
Proof.
  split; [reflexivity|].
  destruct (matrix_neg i k phi) as (U & HU & HU').
  exists (Op k [- phi] ws), U. repeat split; assumption.
Qed.

(** C7. For [SingleExcitationMinus], [compute_decomposition(1.23, wires=(0, 1))]
    returns, and reports to the recording context, exactly the nine operators
    of the documented sequence. *)
Theorem SingleExcitationMinus_decomposition_example (q : QueuingContext) :
  let expected :=
    [ Op PauliX [] [0%Z];
      Op PauliX [] [1%Z];
      Op ControlledPhaseShift [-0.615] [1%Z; 0%Z];
      Op PauliX [] [0%Z];
      Op PauliX [] [1%Z];
      Op ControlledPhaseShift [-0.615] [0%Z; 1%Z];
      Op CNOT [] [0%Z; 1%Z];
      Op CRY [1.23] [1%Z; 0%Z];
      Op CNOT [] [0%Z; 1%Z] ] in
  compute_decomposition SingleExcitationMinus 1.23 [0%Z; 1%Z] q
  = (Ok expected, append_ops expected q) /\
  List.length expected = 9%nat.
Proof.
  intros expected. split; [|reflexivity].
  assert (E : - (1.23) / 2 = -0.615) by lra.
  unfold expected. rewrite <- E.
  destruct q as [[|t r] s]; [reflexivity|].
  cbv [compute_decomposition SingleExcitationMinus_compute_decomposition sequence qml
         bind ret construct getitem nth_error append_ops active_contexts suspended].
  rewrite <- !app_assoc. reflexivity.
Qed.

(** C8. [DoubleExcitationPlus] and [DoubleExcitationMinus] supply no
    decomposition: asked to decompose, each raises the
    "decomposition undefined" error, whatever the parameter and the wires,
    leaves the recording context untouched, and returns no sequence. *)
Theorem DoubleExcitationPlusMinus_decomposition_undefined (k : QChemKind) (phi : R)
  (ws : list Wire) (q : QueuingContext) :
  k = DoubleExcitationPlus \/ k = DoubleExcitationMinus ->
  has_compute_decomposition k = false /\
  compute_decomposition k phi ws q = (Raise DecompositionUndefinedError, q) /\
  forall ops, fst (compute_decomposition k phi ws q) <> Ok ops.
Proof.
  intros [-> | ->]; repeat split; intros ops H; discriminate H.
Qed.

Lemma DoubleExcitationPlusMinus_decomposition_undefined_witness :
  let q := mkQC [[]] [] in
  (DoubleExcitationPlus = DoubleExcitationPlus \/ DoubleExcitationPlus = DoubleExcitationMinus) /\
  compute_decomposition DoubleExcitationPlus 1.23 [0%Z; 1%Z; 2%Z; 3%Z] q
  = (Raise DecompositionUndefinedError, q).
Proof.
  intros q. split; [left; reflexivity|].
  apply (DoubleExcitationPlusMinus_decomposition_undefined DoubleExcitationPlus 1.23
           [0%Z; 1%Z; 2%Z; 3%Z] q). left; reflexivity.
Defined.

(** C6. For every class that defines [compute_decomposition], every real
    parameter [phi] (so for 1.23 and for 0) and distinct wires, the product of
    the matrices of the returned sequence, the first operator acting first,
    equals the matrix of the operator up to a global phase. *)
Theorem decomposition_matrix_up_to_phase (i : Interface) (k : QChemKind) (phi : R)
  (ws : list Wire) (q : QueuingContext) :
  has_compute_decomposition k = true ->
  List.length ws = num_wires k ->
  NoDup ws ->
  exists ops P U,
    fst (compute_decomposition k phi ws q) = Ok ops /\
    sequence_matrix ws ops = Some P /\
    matrix i k [phi] = Ok U /\
    equal_up_to_phase P U.
Proof.
  intros Hk Hlen Hnd.
  destruct (decomposition_placed k phi ws q Hk Hlen Hnd) as (ops & Hops & Hplaced).
  exists ops. eexists. eexists.
  split; [exact Hops|]. split.
  - unfold sequence_matrix. rewrite Hplaced, Hlen. cbv zeta.
    rewrite (product_sound (phi / 16) _ _ _ (decomposition_check k Hk)). reflexivity.
  - split; [apply matrix_target | apply equal_up_to_phase_refl].
Qed.

Lemma decomposition_matrix_up_to_phase_witness :
  let k := SingleExcitationMinus in
  let ws := [0%Z; 1%Z] in
  let q := mkQC [] [] in
  has_compute_decomposition k = true /\ List.length ws = num_wires k /\ NoDup ws /\
  exists ops P U,
    fst (compute_decomposition k 1.23 ws q) = Ok ops /\
    sequence_matrix ws ops = Some P /\
    matrix numpy k [1.23] = Ok U /\
    equal_up_to_phase P U.
Proof.
  intros k ws q.
  assert (Hk : has_compute_decomposition k = true) by reflexivity.
  assert (Hl : List.length ws = num_wires k) by reflexivity.
  assert (Hn : NoDup ws).
  { repeat constructor; cbn; intuition discriminate. }
  split; [exact Hk|]. split; [exact Hl|]. split; [exact Hn|].
  exact (decomposition_matrix_up_to_phase numpy k 1.23 ws q Hk Hl Hn).
Defined.

(** C10. Calling [adjoint()] on an operator of a class of [qchem_ops.py]
    allocates a new operator, with the negated parameter, behind a reference
    that was not in use; the receiver and every other object of the store are
    as they were before the call.  The new object is the operator that the
    method returns in the recording monad. *)
Theorem adjoint_leaves_receiver_unchanged (st : Store) (self : Ref) (k : QChemKind)
  (phi : R) (w : list Wire) :
  deref st self = Some (Op k [phi] w) ->
  exists r st',
    adjoint_object self st = (Ok r, st') /\
    deref st r = None /\
    r <> self /\
    deref st' r = Some (Op k [- phi] w) /\
    deref st' self = Some (Op k [phi] w) /\
    (forall r' o, deref st r' = Some o -> deref st' r' = Some o) /\
    (forall q, fst (QChem_adjoint k [phi] w q) = Ok (Op k [- phi] w)).
Proof.
  intros Hself. unfold adjoint_object. rewrite Hself. cbn [allocate].
  exists (List.length st), (st ++ [Op k [- phi] w]).
  assert (Hlt : (self < List.length st)%nat).
  { apply nth_error_Some. unfold deref in Hself. congruence. }
  unfold deref in *. repeat split.
  - apply nth_error_None. lia.
  - lia.
  - rewrite nth_error_app2 by lia. now rewrite Nat.sub_diag.
  - rewrite nth_error_app1 by lia. exact Hself.
  - intros r' o Hr. rewrite nth_error_app1; [exact Hr|].
    apply nth_error_Some. congruence.
Qed.

Lemma adjoint_leaves_receiver_unchanged_witness :
  let op := Op SingleExcitation [0.5] [0%Z; 1%Z] in
  let st := [Op PauliX [] [0%Z]; op] in
  deref st 1%nat = Some op /\
  exists r st',
    adjoint_object 1%nat st = (Ok r, st') /\
    deref st' 1%nat = Some op /\
    deref st' r = Some (Op SingleExcitation [- (0.5)] [0%Z; 1%Z]).
Proof.
  intros op st. split; [reflexivity|].
  destruct (adjoint_leaves_receiver_unchanged st 1%nat SingleExcitation 0.5 [0%Z; 1%Z] eq_refl)
    as (r & st' & H1 & _ & _ & H4 & H5 & _ & _).
  exists r, st'. split; [exact H1|]. split; [exact H5 | exact H4].
Defined.

(* ================================================================== *)
(** ** The adjoint transform *)
(* ================================================================== *)

Lemma adjoint_callable (sv : PyValue -> string) (st : PyType -> string)
  (fn : PyValue) (q : QueuingContext) :
  callable fn = true ->
  adjoint sv st fn q = (Ok (VFunction (wrapper fn)), q).
Proof. intros H. unfold adjoint. now rewrite H. Qed.




(** C2 (as amended). Applying [adjoint] twice to a single-operator procedure
    wraps twice: the result is [Adjoint(Adjoint(op))], whose base is the
    wrapper [Adjoint(op)], whose base in turn is [op]; its parameters and
    wires are those of [op]. *)
Theorem nested_adjoint_wraps_twice (sv : PyValue -> string) (st : PyType -> string)
  (op : Operator) (q0 q : QueuingContext) :
  exists w1 w2,
    adjoint sv st (operator_class_call op) q0 = (Ok w1, q0) /\
    adjoint sv st w1 q0 = (Ok w2, q0) /\
    call w2 q = (Ok (VOperator (Adjoint (Adjoint op))),
                 append_ops [Adjoint (Adjoint op)] q) /\
    base (Adjoint (Adjoint op)) = Some (Adjoint op) /\
    base (Adjoint op) = Some op /\
    parameters (Adjoint (Adjoint op)) = parameters op /\
    wires (Adjoint (Adjoint op)) = wires op.
Proof.
  exists (VFunction (wrapper (operator_class_call op))).
  exists (VFunction (wrapper (VFunction (wrapper (operator_class_call op))))).
  split; [now apply adjoint_callable|]. split; [now apply adjoint_callable|].
  split; [|repeat split].
  pose proof (operator_class_call_emits op) as H1.
  assert (Hn : [op] <> []) by discriminate.
  pose proof (wrapper_is_procedure _ _ _ H1 Hn) as H2. cbn [rev List.map app single_or_list] in H2.
  assert (Hn2 : [Adjoint op] <> []) by discriminate.
  exact (wrapper_emitted _ _ _ q H2 Hn2).
Qed.

(** Counterexample to C2 as stated: for [RX(4.321)] recorded on a tape, the
    nested transform returns a double wrapper: its base is a wrapper, not the
    operator, and it is not the operator either. *)
Lemma nested_adjoint_counterexample :
  let op := Op RX [4.321] [0%Z] in
  let q := mkQC [[]] [] in
  exists out,
    fst (wrapper (VFunction (wrapper (operator_class_call op))) q) = Ok (VOperator out) /\
    out = Adjoint (Adjoint op) /\
    base out <> Some op /\
    out <> op.
Proof.
  intros op q. exists (Adjoint (Adjoint op)).
  split; [reflexivity|]. split; [reflexivity|]. split; discriminate.
Qed.

(** C3 (as amended). Each operator of the reversed captured sequence is mapped
    to the generic wrapper [Adjoint(op)], whether or not its class defines a
    closed-form adjoint; a single operator comes back as one wrapper with the
    parameters and wires of the operator unchanged. *)
Theorem adjoint_transform_always_wraps (fn : PyValue) (ops : list Operator)
  (res : PyValue) (q : QueuingContext) :
  emits fn ops res ->
  ops <> [] ->
  exists out,
    wrapper fn q = (Ok (single_or_list out), append_ops out q) /\
    (forall n op, nth_error (rev ops) n = Some op -> nth_error out n = Some (Adjoint op)) /\
    Forall (fun o => is_Adjoint o = true) out /\
    (forall op, ops = [op] ->
       single_or_list out = VOperator (Adjoint op) /\
       parameters (Adjoint op) = parameters op /\
       wires (Adjoint op) = wires op).
Proof.
  intros Hfn Hne. exists (List.map Adjoint (rev ops)).
  split; [apply (wrapper_emitted fn ops res q Hfn Hne)|].
  split; [intros n op H; now apply map_nth_error|].
  split; [apply Forall_forall; intros o Ho; apply in_map_iff in Ho as (b & <- & _); reflexivity|].
  intros op ->. repeat split.
Qed.

Lemma adjoint_transform_always_wraps_witness :
  let op := Op RX [0.123] [0%Z] in
  let q := mkQC [] [] in
  emits (operator_class_call op) [op] (VOperator op) /\ [op] <> [] /\
  wrapper (operator_class_call op) q = (Ok (VOperator (Adjoint op)), q) /\
  parameters (Adjoint op) = [0.123].
Proof.
  intros op q.
  assert (He : emits (operator_class_call op) [op] (VOperator op))
    by apply operator_class_call_emits.
  assert (Hn : [op] <> []) by discriminate.
  split; [exact He|]. split; [exact Hn|].
  destruct (adjoint_transform_always_wraps (operator_class_call op) [op] (VOperator op) q He Hn)
    as (out & Hw & _ & _ & H1).
  destruct (H1 op eq_refl) as (Hs & Hp & _).
  split; [|exact Hp]. rewrite Hw, Hs. reflexivity.
Defined.

(** Counterexample to C3 as stated.  [SingleExcitation] defines a closed-form
    adjoint, which gives [SingleExcitation(-0.123)], yet the transform returns
    the wrapper around [SingleExcitation(0.123)]; and for the rotation [RX]
    with parameter 0.123 on wire 0 it returns the wrapper around [RX(0.123)],
    not [RX(-0.123)]. *)
Lemma adjoint_transform_shortcut_counterexample :
  let q := mkQC [] [] in
  let se := Op SingleExcitation [0.123] [0%Z; 1%Z] in
  let rx := Op RX [0.123] [0%Z] in
  defines_adjoint SingleExcitation = true /\
  fst (QChem_adjoint SingleExcitation (parameters se) (wires se) q)
    = Ok (Op SingleExcitation [- (0.123)] [0%Z; 1%Z]) /\
  fst (wrapper (operator_class_call se) q) = Ok (VOperator (Adjoint se)) /\
  fst (wrapper (operator_class_call se) q)
    <> Ok (VOperator (Op SingleExcitation [- 0.123] [0%Z; 1%Z])) /\
  fst (wrapper (operator_class_call rx) q) = Ok (VOperator (Adjoint rx)) /\
  fst (wrapper (operator_class_call rx) q) <> Ok (VOperator (Op RX [- 0.123] [0%Z])).
Proof.
  intros q se rx.
  assert (Hse : fst (wrapper (operator_class_call se) q) = Ok (VOperator (Adjoint se)))
    by reflexivity.
  assert (Hrx : fst (wrapper (operator_class_call rx) q) = Ok (VOperator (Adjoint rx)))
    by reflexivity.
  split; [reflexivity|]. split; [reflexivity|].
  split; [exact Hse|]. split; [rewrite Hse; discriminate|].
  split; [exact Hrx|]. rewrite Hrx; discriminate.
Qed.

Lemma string_append_assoc (a b c : string) :
  ((a ++ b) ++ c = a ++ (b ++ c))%string.
Proof. induction a as [|x a IH]; cbn; [reflexivity | now rewrite IH]. Qed.

(** C4. Applied to a value that is not callable, [adjoint] raises the
    invalid-argument error and leaves the recording context as it was; the
    message contains the text of the type of the value. *)
Theorem adjoint_rejects_noncallable (sv : PyValue -> string) (st : PyType -> string)
  (fn : PyValue) (q : QueuingContext) :
  callable fn = false ->
  adjoint sv st fn q = (Raise (ValueError (not_callable_message sv st fn)), q) /\
  exists pre post,
    not_callable_message sv st fn = (pre ++ st (type_of fn) ++ post)%string.
Proof.
  intros H. split.
  - unfold adjoint. now rewrite H.
  - exists ("The object " ++ sv fn ++ " of type ")%string. eexists.
    unfold not_callable_message. rewrite !string_append_assoc. reflexivity.
Qed.

Lemma adjoint_rejects_noncallable_witness :
  let fn := VList [Op Hadamard [] [1%Z]; Op RX [- 0.2] [1%Z]] in
  let sv := fun _ : PyValue => "[Hadamard(wires=[1]), RX(-0.2, wires=[1])]"%string in
  let st := fun _ : PyType => "<class 'list'>"%string in
  let q := mkQC [[]] [] in
  callable fn = false /\
  adjoint sv st fn q = (Raise (ValueError (not_callable_message sv st fn)), q).
Proof.
  intros fn sv st q. split; [reflexivity|].
  apply (adjoint_rejects_noncallable sv st fn q). reflexivity.
Defined.

(** C9 (as amended). When the procedure emits nothing and returns a tape, the
    operations of the returned tape are transformed: the wrappers of its
    operations are emitted in reverse order. *)
Theorem adjoint_transform_of_returned_tape (fn : PyValue) (t : Tape) (q : QueuingContext) :
  emits fn [] (VTape t) ->
  let adjoint_ops := List.map Adjoint (rev t) in
  wrapper fn q = (Ok (single_or_list adjoint_ops), append_ops adjoint_ops q).
Proof. intros Hfn. apply wrapper_returned_tape, Hfn. Qed.

Lemma adjoint_transform_of_returned_tape_witness :
  let a := Op CNOT [] [0%Z; 1%Z] in
  let b := Op CRY [1.23] [1%Z; 0%Z] in
  let fn := procedure [] (VTape [a; b]) in
  let q := mkQC [[]] [] in
  emits fn [] (VTape [a; b]) /\
  wrapper fn q = (Ok (VList [Adjoint b; Adjoint a]), mkQC [[Adjoint b; Adjoint a]] []).
Proof.
  intros a b fn q.
  assert (He : emits fn [] (VTape [a; b])) by apply procedure_emits.
  split; [exact He|]. exact (adjoint_transform_of_returned_tape fn [a; b] q He).
Defined.

(** Counterexample to C9 as stated: a procedure that emits nothing and returns
    a plain list of operators makes the transform raise an attribute error,
    and nothing is emitted. *)
Lemma returned_list_counterexample :
  let a := Op CNOT [] [0%Z; 1%Z] in
  let b := Op CRY [1.23] [1%Z; 0%Z] in
  let fn := procedure [] (VList [a; b]) in
  let q := mkQC [[]] [] in
  emits fn [] (VList [a; b]) /\
  wrapper fn q = (Raise AttributeError, q).
Proof. intros a b fn q. split; [apply procedure_emits | reflexivity]. Qed.

(* ================================================================== *)
(** * Further properties of the operators and the transform *)
(* ================================================================== *)

(** ** Soundness of the polynomials in four variables *)

Lemma V4_sound (x1 x2 x3 x4 : R) :
  Sound Sym2.V4_Scalar Sym2.V4_is_zero (Sym2.V4_ev x1 x2 x3 x4).
Proof. repeat apply Poly_sound. apply Q_sound. Qed.

Lemma T2_sound (x1 x2 x3 x4 : R) :
  Sound Sym2.T_Scalar Sym2.T_is_zero (Sym2.ev x1 x2 x3 x4).
Proof.
  apply (Ext_sound _ _ _ (V4_sound x1 x2 x3 x4)).
  rewrite (ev_kopp _ _ _ (V4_sound x1 x2 x3 x4)), (ev_k1 _ _ _ (V4_sound x1 x2 x3 x4)). C_eq.
Qed.

Ltac ev_variable :=
  unfold Sym2.ev, Sym2.V4_ev, Sym.Ext_ev, Sym.Q_ev; cbn [fst snd];
  rewrite ?Poly_ev_cons, ?Poly_ev_nil; unfold Q2R; cbn [Qnum Qden];
  C_unfold; list_eq; field.

Lemma ev_x1 (x1 x2 x3 x4 : R) : Sym2.ev x1 x2 x3 x4 Sym2.x1 = RtoC x1.
Proof. unfold Sym2.x1. ev_variable. Qed.
Lemma ev_x2 (x1 x2 x3 x4 : R) : Sym2.ev x1 x2 x3 x4 Sym2.x2 = RtoC x2.
Proof. unfold Sym2.x2. ev_variable. Qed.
Lemma ev_x3 (x1 x2 x3 x4 : R) : Sym2.ev x1 x2 x3 x4 Sym2.x3 = RtoC x3.
Proof. unfold Sym2.x3. ev_variable. Qed.
Lemma ev_x4 (x1 x2 x3 x4 : R) : Sym2.ev x1 x2 x3 x4 Sym2.x4 = RtoC x4.
Proof. unfold Sym2.x4. ev_variable. Qed.
Lemma ev_i2 (x1 x2 x3 x4 : R) : Sym2.ev x1 x2 x3 x4 Sym2.i = Ci.
Proof.
  unfold Sym2.ev, Sym2.i, Sym.Ext_ev; cbn [fst snd].
  rewrite (ev_k0 _ _ _ (V4_sound x1 x2 x3 x4)), (ev_k1 _ _ _ (V4_sound x1 x2 x3 x4)). ring.
Qed.
Lemma ev_of_Q (x1 x2 x3 x4 : R) (q : Q) : Sym2.ev x1 x2 x3 x4 (Sym2.of_Q q) = RtoC (Q2R q).
Proof.
  unfold Sym2.of_Q, Sym2.ev, Sym2.V4_ev, Sym.Ext_ev, Sym.Q_ev; cbn [fst snd].
  rewrite ?Poly_ev_cons, ?Poly_ev_nil. C_unfold; list_eq; ring.
Qed.

Lemma eqb2_sound (x1 x2 x3 x4 : R) (a b : Sym2.T) :
  Sym2.eqb a b = true -> Sym2.ev x1 x2 x3 x4 a = Sym2.ev x1 x2 x3 x4 b.
Proof.
  pose proof (T2_sound x1 x2 x3 x4) as HT. unfold Sym2.eqb. intros H.
  apply (ev_isz _ _ _ HT) in H. rewrite (ev_kadd _ _ _ HT), (ev_kopp _ _ _ HT) in H.
  transitivity (Cadd (Cadd (Sym2.ev x1 x2 x3 x4 a) (Copp (Sym2.ev x1 x2 x3 x4 b)))
                  (Sym2.ev x1 x2 x3 x4 b)); [ring|].
  rewrite H. ring.
Qed.

Lemma meqb2_sound (x1 x2 x3 x4 : R) (a b : Matrix Sym2.T) :
  Sym2.meqb a b = true ->
  map_matrix (Sym2.ev x1 x2 x3 x4) a = map_matrix (Sym2.ev x1 x2 x3 x4) b.
Proof.
  unfold Sym2.meqb, map_matrix. apply all2_sound. intros r r'. apply all2_sound.
  apply eqb2_sound.
Qed.

Lemma matrix_T_sound (x1 x2 x3 x4 : R) (k : QChemKind) (theta : R) (c s : Sym2.T) :
  Sym2.ev x1 x2 x3 x4 c = RtoC (cos (theta / 2)) ->
  Sym2.ev x1 x2 x3 x4 s = RtoC (sin (theta / 2)) ->
  matrix numpy k [theta] = Ok (map_matrix (Sym2.ev x1 x2 x3 x4) (Sym2.matrix_T k c s)).
Proof.
  intros Hc Hs. pose proof (T2_sound x1 x2 x3 x4) as HT.
  unfold matrix. f_equal. unfold Sym2.matrix_T.
  destruct k;
    unfold SingleExcitation_matrix, SingleExcitationMinus_matrix, SingleExcitationPlus_matrix,
      DoubleExcitation_matrix, DoubleExcitationPlus_matrix, DoubleExcitationMinus_matrix,
      OrbitalRotation_matrix, cos_half, sin_half, cast_like, is_tensorflow, is_torch;
    cbv zeta;
    rewrite ?(hom_SingleExcitation_build _ _ _ HT), ?(hom_SingleExcitationPhase_build _ _ _ HT),
      ?(hom_DoubleExcitation_build _ _ _ HT), ?(hom_DoubleExcitationPhase_build _ _ _ HT),
      ?(hom_OrbitalRotation_build _ _ _ HT), ?(hom_zeros _ _ _ HT),
      ?(ev_kadd _ _ _ HT), ?(ev_kopp _ _ _ HT), ?(ev_kmul _ _ _ HT), ?ev_i2, ?Hc, ?Hs,
      ?exp_minus_eq, ?exp_plus_eq;
    try reflexivity.
  all: try (f_equal; C_eq).
Qed.

Lemma group_check (k : QChemKind) :
  Sym2.meqb (Sym2.matrix_T k Sym2.cos_sum Sym2.sin_sum)
    (@mmul _ Sym2.T_Scalar (Sym2.matrix_T k Sym2.x1 Sym2.x2) (Sym2.matrix_T k Sym2.x3 Sym2.x4))
  = true.
Proof. destruct k; vm_compute; reflexivity. Qed.

(** ** The matrices *)

Lemma cos_half_plus (a b : R) :
  cos ((a + b) / 2) = cos (a / 2) * cos (b / 2) - sin (a / 2) * sin (b / 2).
Proof. replace ((a + b) / 2) with (a / 2 + b / 2) by lra. apply cos_plus. Qed.

Lemma sin_half_plus (a b : R) :
  sin ((a + b) / 2) = sin (a / 2) * cos (b / 2) + cos (a / 2) * sin (b / 2).
Proof. replace ((a + b) / 2) with (a / 2 + b / 2) by lra. apply sin_plus. Qed.

Ltac open_matrix :=
  unfold matrix, SingleExcitation_matrix, SingleExcitationMinus_matrix,
    SingleExcitationPlus_matrix, DoubleExcitation_matrix, DoubleExcitationPlus_matrix,
    DoubleExcitationMinus_matrix, OrbitalRotation_matrix, cos_half, sin_half, cast_like;
  rewrite ?exp_minus_eq, ?exp_plus_eq.

Lemma matrix_add (i : Interface) (k : QChemKind) (a b : R) :
  exists Ua Ub,
    matrix i k [a] = Ok Ua /\ matrix i k [b] = Ok Ub /\
    matrix i k [a + b] = Ok (mmul Ua Ub).
Proof.
  rewrite !(matrix_interface i).
  set (f := Sym2.ev (cos (a / 2)) (sin (a / 2)) (cos (b / 2)) (sin (b / 2))).
  pose proof (T2_sound (cos (a / 2)) (sin (a / 2)) (cos (b / 2)) (sin (b / 2))) as HT.
  fold f in HT.
  exists (map_matrix f (Sym2.matrix_T k Sym2.x1 Sym2.x2)),
         (map_matrix f (Sym2.matrix_T k Sym2.x3 Sym2.x4)).
  split; [apply matrix_T_sound; [apply ev_x1 | apply ev_x2]|].
  split; [apply matrix_T_sound; [apply ev_x3 | apply ev_x4]|].
  pose proof (meqb2_sound (cos (a / 2)) (sin (a / 2)) (cos (b / 2)) (sin (b / 2)) _ _
                (group_check k)) as Hk.
  fold f in Hk. rewrite (hom_mmul _ _ _ HT), <- Hk.
  apply matrix_T_sound; unfold Sym2.cos_sum, Sym2.sin_sum;
    rewrite (ev_kadd _ _ _ HT), ?(ev_kopp _ _ _ HT), !(ev_kmul _ _ _ HT);
    unfold f; rewrite ev_x1, ev_x2, ev_x3, ev_x4;
    rewrite ?cos_half_plus, ?sin_half_plus; C_eq.
Qed.

Lemma matrix_zero (i : Interface) (k : QChemKind) :
  matrix i k [0] = Ok (identity (2 ^ num_wires k)).
Proof.
  rewrite (matrix_interface i).
  destruct k; open_matrix; f_equal;
    replace (0 / 2) with 0 by lra; rewrite cos_0, sin_0;
    unfold_arrays; list_eq; ring.
Qed.

(** X1. The matrices of each class form a one-parameter group: the matrix at
    0 is the identity and the matrix at [a + b] is the product of the matrices
    at [a] and at [b]. *)
Theorem matrix_one_parameter_group (i : Interface) (k : QChemKind) (a b : R) :
  matrix i k [0] = Ok (identity (2 ^ num_wires k)) /\
  exists Ua Ub,
    matrix i k [a] = Ok Ua /\ matrix i k [b] = Ok Ub /\
    matrix i k [a + b] = Ok (mmul Ua Ub).
Proof. split; [apply matrix_zero | apply matrix_add]. Qed.

(** X2. The matrix of each class is unitary for every real parameter: it has
    [2 ^ num_wires] rows, and its product with its conjugate transpose, on
    either side, is the identity. *)
Theorem matrix_unitary (i : Interface) (k : QChemKind) (phi : R) :
  exists U,
    matrix i k [phi] = Ok U /\
    List.length U = (2 ^ num_wires k)%nat /\
    mmul (conjugate_transpose U) U = identity (2 ^ num_wires k) /\
    mmul U (conjugate_transpose U) = identity (2 ^ num_wires k).
Proof.
  destruct (matrix_neg i k phi) as (U & HU & HU').
  exists U. split; [exact HU|]. split.
  - rewrite (matrix_interface i) in HU. destruct k; injection HU as <-; reflexivity.
  - split.
    + destruct (matrix_add i k (- phi) phi) as (Ua & Ub & Ha & Hb & Hab).
      rewrite Rplus_opp_l, matrix_zero in Hab. rewrite HU' in Ha. rewrite HU in Hb.
      injection Ha as <-. injection Hb as <-. now injection Hab.
    + destruct (matrix_add i k phi (- phi)) as (Ua & Ub & Ha & Hb & Hab).
      rewrite Rplus_opp_r, matrix_zero in Hab. rewrite HU' in Hb. rewrite HU in Ha.
      injection Ha as <-. injection Hb as <-. now injection Hab.
Qed.

(** ** The decompositions and the closed-form adjoints *)




(** X4. With fewer than [num_wires] wires, [compute_decomposition] raises the
    index error of the first missing wire.  Nothing is undone: the operators
    constructed before the missing wire was reached stay reported, which is
    [PauliX(wires[0])] for [SingleExcitationMinus] and [SingleExcitationPlus]
    on one wire, and nothing otherwise. *)
Theorem decomposition_too_few_wires (k : QChemKind) (phi : R)
  (ws : list Wire) (q : QueuingContext) :
  has_compute_decomposition k = true ->
  (List.length ws < num_wires k)%nat ->
  let reported :=
    match k, ws with
    | SingleExcitationMinus, [w] | SingleExcitationPlus, [w] => [Op PauliX [] [w]]
    | _, _ => []
    end in
  compute_decomposition k phi ws q = (Raise IndexError, append_ops reported q).
Proof.
  intros Hk Hlen.
  destruct k; try discriminate Hk; cbn [num_wires] in Hlen;
    (destruct ws as [|w0 [|w1 [|w2 [|w3 ws]]]]; cbn [List.length] in Hlen; try lia);
    cbv zeta; rewrite ?append_ops_nil; reflexivity.
Qed.

Lemma decomposition_too_few_wires_witness :
  let q := mkQC [[]] [] in
  has_compute_decomposition SingleExcitationMinus = true /\
  (List.length [4%Z] < num_wires SingleExcitationMinus)%nat /\
  compute_decomposition SingleExcitationMinus 1.23 [4%Z] q
  = (Raise IndexError, mkQC [[Op PauliX [] [4%Z]]] []).
Proof.
  intros q.
  assert (Hk : has_compute_decomposition SingleExcitationMinus = true) by reflexivity.
  assert (Hl : (List.length [4%Z] < num_wires SingleExcitationMinus)%nat) by (cbn; lia).
  split; [exact Hk|]. split; [exact Hl|].
  exact (decomposition_too_few_wires SingleExcitationMinus 1.23 [4%Z] q Hk Hl).
Defined.

(** X5. The closed-form adjoint is an involution: calling [adjoint()] on the
    adjoint of an operator constructs an operator with the class, parameter
    and wires of the original; each of the two calls reports the operator it
    constructs. *)
Theorem adjoint_method_involution (k : QChemKind) (phi : R) (ws : list Wire)
  (q : QueuingContext) :
  exists adj m,
    QChem_adjoint k (parameters (Op k [phi] ws)) (wires (Op k [phi] ws)) q
      = (Ok adj, append_ops [adj] q) /\
    adjoint_method adj = Some m /\
    m (append_ops [adj] q) = (Ok (Op k [phi] ws), append_ops [adj; Op k [phi] ws] q).
Proof.
  exists (Op k [- phi] ws). eexists. split; [reflexivity|]. split; [reflexivity|].
  cbn [QChem_adjoint]. unfold QChem_adjoint, unpack1, bind, ret, construct.
  rewrite Ropp_involutive, append_ops_app. reflexivity.
Qed.

(** ** The transform *)

(** X6. When the procedure raises, after emitting any operators, the wrapper
    raises the same exception and the recording context is as it was before
    the call: the tape of the transform is closed, recording is resumed, and
    nothing of the failed procedure reaches the ambient tape. *)
Theorem wrapper_exception_safe (fn : PyValue) (ops : list Operator) (e : PyExn)
  (q : QueuingContext) :
  (forall q', call fn q' = (Raise e, append_ops ops q')) ->
  wrapper fn q = (Raise e, q).
Proof.
  intros Hfn. destruct q as [act susp].
  unfold wrapper, with_stop_recording_tape, bind, finally, suspend_enter, tape_enter,
    tape_exit, suspend_exit, ret; cbn [active_contexts suspended List.length].
  rewrite Hfn. unfold append_ops; cbn [active_contexts suspended List.length Nat.eqb snd].
  reflexivity.
Qed.

Lemma wrapper_exception_safe_witness :
  let a := Op RX [0.5] [0%Z] in
  let e := ValueError "failed" in
  let fn := VFunction (construct a ;;; raise e) in
  let q := mkQC [[Op PauliX [] [1%Z]]] [] in
  (forall q', call fn q' = (Raise e, append_ops [a] q')) /\
  wrapper fn q = (Raise e, q).
Proof.
  intros a e fn q.
  assert (H : forall q', call fn q' = (Raise e, append_ops [a] q')) by (intros q'; reflexivity).
  split; [exact H|]. exact (wrapper_exception_safe fn [a] e q H).
Defined.

(** X7. Applying [adjoint] twice restores the order of emission: for a
    procedure that emits [ops], the doubly transformed function emits the
    double wrapper of each operator, in the order of [ops]. *)
Theorem nested_adjoint_restores_order (sv : PyValue -> string) (st : PyType -> string)
  (fn : PyValue) (ops : list Operator) (res : PyValue) (q0 q : QueuingContext) :
  emits fn ops res ->
  ops <> [] ->
  let twice := List.map (fun op => Adjoint (Adjoint op)) ops in
  exists w1 w2,
    adjoint sv st fn q0 = (Ok w1, q0) /\
    adjoint sv st w1 q0 = (Ok w2, q0) /\
    call w2 q = (Ok (single_or_list twice), append_ops twice q) /\
    List.map wires twice = List.map wires ops /\
    List.map parameters twice = List.map parameters ops.
Proof.
  intros Hfn Hne twice.
  exists (VFunction (wrapper fn)), (VFunction (wrapper (VFunction (wrapper fn)))).
  split; [apply adjoint_callable, Hfn|]. split; [now apply adjoint_callable|].
  pose proof (wrapper_is_procedure _ _ _ Hfn Hne) as H2.
  assert (Hne2 : List.map Adjoint (rev ops) <> []).
  { intros E. apply Hne. apply (f_equal (@List.length _)) in E.
    rewrite length_map, length_rev in E. now destruct ops. }
  pose proof (wrapper_emitted _ _ _ q H2 Hne2) as H3.
  rewrite <- map_rev, rev_involutive, map_map in H3.
  split; [exact H3|]. unfold twice. rewrite !map_map. split; reflexivity.
Qed.

Lemma nested_adjoint_restores_order_witness :
  let a := Op RX [1.23] [0%Z] in
  let b := Op RY [2.34] [0%Z] in
  let fn := procedure [a; b] VNone in
  let q := mkQC [[]] [] in
  emits fn [a; b] VNone /\ [a; b] <> [] /\
  exists w1 w2,
    adjoint (fun _ => EmptyString) (fun _ => EmptyString) fn q = (Ok w1, q) /\
    adjoint (fun _ => EmptyString) (fun _ => EmptyString) w1 q = (Ok w2, q) /\
    call w2 q = (Ok (VList [Adjoint (Adjoint a); Adjoint (Adjoint b)]),
                 mkQC [[Adjoint (Adjoint a); Adjoint (Adjoint b)]] []).
Proof.
  intros a b fn q.
  assert (He : emits fn [a; b] VNone) by apply procedure_emits.
  assert (Hn : [a; b] <> []) by discriminate.
  split; [exact He|]. split; [exact Hn|].
  destruct (nested_adjoint_restores_order (fun _ => EmptyString) (fun _ => EmptyString)
              fn [a; b] VNone q q He Hn) as (w1 & w2 & H1 & H2 & H3 & _).
  exists w1, w2. split; [exact H1|]. split; [exact H2 | exact H3].
Defined.

(** X8. A procedure that emits nothing and returns anything but a tape, for
    instance a function without operators that returns [None], makes the
    wrapper raise an attribute error; the recording context is unchanged. *)
Theorem wrapper_empty_procedure (fn : PyValue) (res : PyValue) (q : QueuingContext) :
  emits fn [] res ->
  (forall t, res <> VTape t) ->
  wrapper fn q = (Raise AttributeError, q).
Proof.
  intros Hfn Hres. unfold wrapper. unfold bind at 1.
  rewrite (with_stop_recording_tape_emits _ _ _ _ Hfn). cbn [fst snd is_empty].
  destruct res; try reflexivity. now destruct (Hres operations).
Qed.

Lemma wrapper_empty_procedure_witness :
  let fn := procedure [] VNone in
  let q := mkQC [[Op PauliX [] [0%Z]]] [] in
  emits fn [] VNone /\ (forall t, VNone <> VTape t) /\
  wrapper fn q = (Raise AttributeError, q).
Proof.
  intros fn q.
  assert (He : emits fn [] VNone) by apply procedure_emits.
  assert (Hn : forall t, VNone <> VTape t) by (intros t; discriminate).
  split; [exact He|]. split; [exact Hn|].
  exact (wrapper_empty_procedure fn VNone q He Hn).
Defined.



(** ** The gradient recipes *)

Lemma INV_SQRT2_sqrt2 : INV_SQRT2 * sqrt 2 = 1.
Proof.
  unfold INV_SQRT2.
  assert (H2 : sqrt 2 * sqrt 2 = 2) by (apply sqrt_sqrt; lra).
  assert (Hn : sqrt 2 <> 0) by (intros E; rewrite E in H2; lra).
  field. exact Hn.
Qed.

Lemma two_frequencies_derivative (k0 k1 k2 k3 k4 theta : R) :
  derivable_pt_lim (GradRecipe.two_frequencies k0 k1 k2 k3 k4) theta
    (- k1 / 2 * sin (theta / 2) + k2 / 2 * cos (theta / 2) - k3 * sin theta + k4 * cos theta).
Proof.
  assert (Hhalf : derivable_pt_lim (fun t => t / 2) theta (/ 2)).
  { replace (/ 2) with (1 * / 2 + id theta * 0) by (unfold id; lra).
    change (fun t : R => t / 2) with (mult_fct id (fct_cte (/ 2))).
    apply (derivable_pt_lim_mult id (fct_cte (/ 2)) theta 1 0);
      [apply derivable_pt_lim_id | apply derivable_pt_lim_const]. }
  assert (Hc : derivable_pt_lim (fun t => cos (t / 2)) theta (- sin (theta / 2) * / 2)).
  { change (fun t => cos (t / 2)) with (comp cos (fun t => t / 2)).
    apply derivable_pt_lim_comp; [exact Hhalf | apply derivable_pt_lim_cos]. }
  assert (Hs : derivable_pt_lim (fun t => sin (t / 2)) theta (cos (theta / 2) * / 2)).
  { change (fun t => sin (t / 2)) with (comp sin (fun t => t / 2)).
    apply derivable_pt_lim_comp; [exact Hhalf | apply derivable_pt_lim_sin]. }
  unfold GradRecipe.two_frequencies.
  replace (- k1 / 2 * sin (theta / 2) + k2 / 2 * cos (theta / 2) - k3 * sin theta
           + k4 * cos theta)
    with (0 + k1 * (- sin (theta / 2) * / 2) + k2 * (cos (theta / 2) * / 2)
          + k3 * (- sin theta) + k4 * cos theta) by lra.
  repeat (apply (derivable_pt_lim_plus));
    try (apply derivable_pt_lim_const);
    try (apply (derivable_pt_lim_scal _ _ _ _ Hc));
    try (apply (derivable_pt_lim_scal _ _ _ _ Hs));
    try (apply derivable_pt_lim_scal; apply derivable_pt_lim_cos);
    try (apply derivable_pt_lim_scal; apply derivable_pt_lim_sin).
Qed.

Lemma sqrt2_INV_SQRT2 : sqrt 2 = 2 * INV_SQRT2.
Proof.
  unfold INV_SQRT2.
  assert (H2 : sqrt 2 * sqrt 2 = 2) by (apply sqrt_sqrt; lra).
  assert (Hn : sqrt 2 <> 0) by (intros E; rewrite E in H2; lra).
  rewrite <- H2 at 2. field. exact Hn.
Qed.

Lemma four_term_sum (k0 k1 k2 k3 k4 theta : R) :
  GradRecipe.shift_rule (nth 0 GradRecipe.four_term_grad_recipe [])
    (GradRecipe.two_frequencies k0 k1 k2 k3 k4) theta
  = - k1 / 2 * sin (theta / 2) + k2 / 2 * cos (theta / 2) - k3 * sin theta + k4 * cos theta.
Proof.
  unfold GradRecipe.shift_rule, GradRecipe.four_term_grad_recipe, GradRecipe.two_frequencies,
    GradRecipe.c1, GradRecipe.c2, GradRecipe.a, GradRecipe.b.
  cbn [nth fold_right fst snd].
  replace ((1 * theta + PI / 2) / 2) with (theta / 2 + PI / 4) by lra.
  replace ((1 * theta + - (PI / 2)) / 2) with (theta / 2 - PI / 4) by lra.
  replace ((1 * theta + 3 * PI / 2) / 2) with (theta / 2 + 3 * (PI / 4)) by lra.
  replace ((1 * theta + - (3 * PI / 2)) / 2) with (theta / 2 - 3 * (PI / 4)) by lra.
  replace (1 * theta + PI / 2) with (theta + PI / 2) by lra.
  replace (1 * theta + - (PI / 2)) with (theta - PI / 2) by lra.
  replace (1 * theta + 3 * PI / 2) with (theta + 3 * (PI / 2)) by lra.
  replace (1 * theta + - (3 * PI / 2)) with (theta - 3 * (PI / 2)) by lra.
  rewrite !cos_plus, !sin_plus, !cos_minus, !sin_minus.
  rewrite cos_PI4, sin_PI4, cos_3PI4, sin_3PI4, cos_PI2, sin_PI2, cos_3PI2, sin_3PI2.
  fold INV_SQRT2. rewrite sqrt2_INV_SQRT2.
  generalize INV_SQRT2_sqr.
  generalize INV_SQRT2 (cos (theta / 2)) (sin (theta / 2)) (cos theta) (sin theta).
  intros h c s c' s' Hh.
  assert (Hn : h <> 0) by (intros E; rewrite E in Hh; lra).
  replace (-1 / (2 * h)) with (- h) by (field_simplify_eq; [nra | exact Hn]).
  transitivity (h * h * (- k1 * s + k2 * c - 2 * k3 * s' + 2 * k4 * c'));
    [field | rewrite Hh; field].
Qed.

Lemma derivable_pt_lim_pointwise (f g : R -> R) (x l : R) :
  (forall z, f z = g z) -> derivable_pt_lim g x l -> derivable_pt_lim f x l.
Proof.
  intros H D eps He. destruct (D eps He) as [d Hd]. exists d.
  intros h Hh1 Hh2. rewrite !H. apply Hd; assumption.
Qed.

Lemma shift_rule_ext (ts : list (R * R * R)) (f g : R -> R) (theta : R) :
  (forall z, f z = g z) -> GradRecipe.shift_rule ts f theta = GradRecipe.shift_rule ts g theta.
Proof.
  intros H. induction ts as [|t ts IH]; [reflexivity|].
  cbn [GradRecipe.shift_rule fold_right]. unfold GradRecipe.shift_rule in IH.
  rewrite IH, H. reflexivity.
Qed.

Lemma quadratic_two_frequencies (p q r t x : R) :
  p + q * (cos (x / 2) * cos (x / 2)) + r * (sin (x / 2) * sin (x / 2))
    + t * (cos (x / 2) * sin (x / 2))
  = GradRecipe.two_frequencies (p + q / 2 + r / 2) 0 0 (q / 2 - r / 2) (t / 2) x.
Proof.
  unfold GradRecipe.two_frequencies.
  replace (cos x) with (cos (2 * (x / 2))) by (f_equal; lra).
  replace (sin x) with (sin (2 * (x / 2))) by (f_equal; lra).
  rewrite cos_2a, sin_2a.
  generalize (sin2_cos2 (x / 2)). unfold Rsqr.
  generalize (cos (x / 2)) (sin (x / 2)). intros c s H.
  transitivity (p + (q / 2 + r / 2) * (s * s + c * c) + (q / 2 - r / 2) * (c * c - s * s)
                + t / 2 * (2 * s * c)); [field | rewrite H; field].
Qed.

Lemma four_term_exact (f : R -> R) (k0 k1 k2 k3 k4 theta : R) :
  (forall x, f x = GradRecipe.two_frequencies k0 k1 k2 k3 k4 x) ->
  derivable_pt_lim f theta
    (GradRecipe.shift_rule (nth 0 GradRecipe.four_term_grad_recipe []) f theta).
Proof.
  intros H. rewrite (shift_rule_ext _ _ _ _ H), four_term_sum.
  eapply derivable_pt_lim_pointwise; [exact H | apply two_frequencies_derivative].
Qed.


Lemma two_term_sum (k0 k3 k4 theta : R) :
  GradRecipe.shift_rule (nth 0 GradRecipe.two_term_grad_recipe [])
    (GradRecipe.two_frequencies k0 0 0 k3 k4) theta
  = - 0 / 2 * sin (theta / 2) + 0 / 2 * cos (theta / 2) - k3 * sin theta + k4 * cos theta.
Proof.
  unfold GradRecipe.shift_rule, GradRecipe.two_term_grad_recipe, GradRecipe.two_frequencies.
  cbn [nth fold_right fst snd].
  replace (1 * theta + PI / 2) with (theta + PI / 2) by lra.
  replace (1 * theta + - (PI / 2)) with (theta - PI / 2) by lra.
  rewrite !cos_plus, !sin_plus, !cos_minus, !sin_minus, cos_PI2, sin_PI2.
  field.
Qed.

Lemma two_term_exact_quadratic (f : R -> R) (p q r t theta : R) :
  (forall x, f x = p + q * (cos (x / 2) * cos (x / 2)) + r * (sin (x / 2) * sin (x / 2))
                   + t * (cos (x / 2) * sin (x / 2))) ->
  derivable_pt_lim f theta
    (GradRecipe.shift_rule (nth 0 GradRecipe.two_term_grad_recipe []) f theta).
Proof.
  intros H.
  assert (H' : forall x, f x = GradRecipe.two_frequencies (p + q / 2 + r / 2) 0 0
                                 (q / 2 - r / 2) (t / 2) x)
    by (intros x; rewrite H; apply quadratic_two_frequencies).
  rewrite (shift_rule_ext _ _ _ _ H'), two_term_sum.
  eapply derivable_pt_lim_pointwise; [exact H' | apply two_frequencies_derivative].
Qed.

Ltac probability_form x :=
  unfold GradRecipe.probability; rewrite (matrix_interface _);
  open_matrix; unfold_arrays; ring.

Ltac probability_cases L :=
  first
    [ solve [apply (L _ 0 0 0 0); let x := fresh "x" in intros x; probability_form x]
    | solve [apply (L _ 1 0 0 0); let x := fresh "x" in intros x; probability_form x]
    | solve [apply (L _ 0 1 0 0); let x := fresh "x" in intros x; probability_form x]
    | solve [apply (L _ 0 0 1 0); let x := fresh "x" in intros x; probability_form x]
    | solve [apply (L _ 0 1 1 0); let x := fresh "x" in intros x; probability_form x] ].



Lemma SingleExcitationMinus_probability (i : Interface) (row col : nat) (theta : R) :
  derivable_pt_lim (GradRecipe.probability i SingleExcitationMinus row col) theta
    (GradRecipe.shift_rule (nth 0 GradRecipe.two_term_grad_recipe [])
       (GradRecipe.probability i SingleExcitationMinus row col) theta).
Proof.
  do 5 (try destruct row as [|row]); do 5 (try destruct col as [|col]);
    probability_cases two_term_exact_quadratic.
Qed.

Lemma SingleExcitationPlus_probability (i : Interface) (row col : nat) (theta : R) :
  derivable_pt_lim (GradRecipe.probability i SingleExcitationPlus row col) theta
    (GradRecipe.shift_rule (nth 0 GradRecipe.two_term_grad_recipe [])
       (GradRecipe.probability i SingleExcitationPlus row col) theta).
Proof.
  do 5 (try destruct row as [|row]); do 5 (try destruct col as [|col]);
    probability_cases two_term_exact_quadratic.
Qed.

Lemma DoubleExcitationPlus_probability (i : Interface) (row col : nat) (theta : R) :
  derivable_pt_lim (GradRecipe.probability i DoubleExcitationPlus row col) theta
    (GradRecipe.shift_rule (nth 0 GradRecipe.two_term_grad_recipe [])
       (GradRecipe.probability i DoubleExcitationPlus row col) theta).
Proof.
  do 17 (try destruct row as [|row]); do 17 (try destruct col as [|col]);
    probability_cases two_term_exact_quadratic.
Qed.

Lemma DoubleExcitationMinus_probability (i : Interface) (row col : nat) (theta : R) :
  derivable_pt_lim (GradRecipe.probability i DoubleExcitationMinus row col) theta
    (GradRecipe.shift_rule (nth 0 GradRecipe.two_term_grad_recipe [])
       (GradRecipe.probability i DoubleExcitationMinus row col) theta).
Proof.
  do 17 (try destruct row as [|row]); do 17 (try destruct col as [|col]);
    probability_cases two_term_exact_quadratic.
Qed.

Lemma shift_rule_plus (ts : list (R * R * R)) (f g : R -> R) (theta : R) :
  GradRecipe.shift_rule ts (fun x => f x + g x) theta
  = GradRecipe.shift_rule ts f theta + GradRecipe.shift_rule ts g theta.
Proof.
  induction ts as [|t ts IH]; [cbn; ring|].
  cbn [GradRecipe.shift_rule fold_right]. unfold GradRecipe.shift_rule in IH.
  rewrite IH. ring.
Qed.

Lemma cos_3PI : cos (3 * PI) = -1.
Proof.
  replace (3 * PI) with (PI + 2 * PI) by lra.
  rewrite cos_plus, cos_2PI, sin_2PI, cos_PI. ring.
Qed.

Lemma sin_3PI : sin (3 * PI) = 0.
Proof.
  replace (3 * PI) with (PI + 2 * PI) by lra.
  rewrite sin_plus, cos_2PI, sin_2PI, sin_PI. ring.
Qed.

Lemma four_term_double_frequency (theta : R) :
  GradRecipe.shift_rule (nth 0 GradRecipe.four_term_grad_recipe [])
    (fun x => 1 / 8 * cos (2 * x)) theta = 0.
Proof.
  unfold GradRecipe.shift_rule, GradRecipe.four_term_grad_recipe,
    GradRecipe.a, GradRecipe.b.
  cbn [nth fold_right fst snd].
  replace (2 * (1 * theta + PI / 2)) with (2 * theta + PI) by lra.
  replace (2 * (1 * theta + - (PI / 2))) with (2 * theta - PI) by lra.
  replace (2 * (1 * theta + 3 * PI / 2)) with (2 * theta + 3 * PI) by lra.
  replace (2 * (1 * theta + - (3 * PI / 2))) with (2 * theta - 3 * PI) by lra.
  rewrite !cos_plus, !cos_minus, cos_PI, sin_PI, cos_3PI, sin_3PI. ring.
Qed.

Lemma OrbitalRotation_probability (i : Interface) (x : R) :
  GradRecipe.probability i OrbitalRotation 3 3 x
  = GradRecipe.two_frequencies (3 / 8) 0 0 (1 / 2) 0 x + 1 / 8 * cos (2 * x).
Proof.
  unfold GradRecipe.probability, GradRecipe.two_frequencies.
  rewrite (matrix_interface _). open_matrix.
  rewrite (cos_2a_cos x).
  replace (cos x) with (cos (2 * (x / 2))) by (f_equal; lra).
  rewrite cos_2a_cos.
  generalize (cos (x / 2)) (sin (x / 2)). intros c s.
  unfold_arrays. field.
Qed.

Lemma OrbitalRotation_probability_derivative (i : Interface) (theta : R) :
  derivable_pt_lim (GradRecipe.probability i OrbitalRotation 3 3) theta
    (GradRecipe.shift_rule (nth 0 GradRecipe.four_term_grad_recipe [])
       (GradRecipe.probability i OrbitalRotation 3 3) theta - sin (2 * theta) / 4).
Proof.
  rewrite (shift_rule_ext _ _ _ _ (OrbitalRotation_probability i)).
  rewrite shift_rule_plus, four_term_sum, four_term_double_frequency.
  eapply derivable_pt_lim_pointwise; [apply OrbitalRotation_probability|].
  match goal with
  | |- derivable_pt_lim _ _ (?d + 0 - _) =>
      replace (d + 0 - sin (2 * theta) / 4)
        with (d + 1 / 8 * (- sin (2 * theta) * (2 * 1))) by lra
  end.
  apply (derivable_pt_lim_plus (GradRecipe.two_frequencies (3 / 8) 0 0 (1 / 2) 0)
           (fun x => 1 / 8 * cos (2 * x))).
  - apply two_frequencies_derivative.
  - apply (derivable_pt_lim_scal (comp cos (mult_real_fct 2 id)) (1 / 8)).
    apply (derivable_pt_lim_comp (mult_real_fct 2 id) cos).
    + apply derivable_pt_lim_scal, derivable_pt_lim_id.
    + apply derivable_pt_lim_cos.
Qed.

(** X10. The four-term gradient recipe is exact on the functions with the
    frequencies 1/2 and 1: for every [k0 + k1 cos(theta/2) + k2 sin(theta/2)
    + k3 cos(theta) + k4 sin(theta)] the sum of [coefficient * f(multiplier *
    theta + shift)] over the four terms of [four_term_grad_recipe] is the
    derivative at [theta]. *)
Theorem four_term_grad_recipe_exact (k0 k1 k2 k3 k4 theta : R) :
  derivable_pt_lim (GradRecipe.two_frequencies k0 k1 k2 k3 k4) theta
    (GradRecipe.shift_rule (nth 0 GradRecipe.four_term_grad_recipe [])
       (GradRecipe.two_frequencies k0 k1 k2 k3 k4) theta).
Proof. apply (four_term_exact _ k0 k1 k2 k3 k4). reflexivity. Qed.



(** X12. The four classes without a recipe of their own,
    [SingleExcitationMinus], [SingleExcitationPlus], [DoubleExcitationPlus]
    and [DoubleExcitationMinus], obey the two-term rule of their docstrings:
    [1/2 (f(phi + pi/2) - f(phi - pi/2))] is the derivative of every
    transition probability of their matrices. *)
Theorem plus_minus_two_term_rule_exact (i : Interface) (k : QChemKind) (row col : nat)
    (theta : R) :
  GradRecipe.grad_recipe k = None ->
  derivable_pt_lim (GradRecipe.probability i k row col) theta
    (GradRecipe.shift_rule (nth 0 GradRecipe.two_term_grad_recipe [])
       (GradRecipe.probability i k row col) theta).
Proof.
  intros Hk. destruct k; try discriminate Hk.
  - apply SingleExcitationMinus_probability.
  - apply SingleExcitationPlus_probability.
  - apply DoubleExcitationPlus_probability.
  - apply DoubleExcitationMinus_probability.
Qed.

Lemma plus_minus_two_term_rule_exact_witness :
  derivable_pt_lim (GradRecipe.probability numpy SingleExcitationMinus 1 2) 0.5
    (GradRecipe.shift_rule (nth 0 GradRecipe.two_term_grad_recipe [])
       (GradRecipe.probability numpy SingleExcitationMinus 1 2) 0.5).
Proof.
  apply (plus_minus_two_term_rule_exact numpy SingleExcitationMinus 1 2 0.5).
  reflexivity.
Defined.

(** X13. [OrbitalRotation] carries the four-term recipe too, but its matrix
    has the entry [cos(phi/2)^2] at [(3, 3)], so the probability that the
    basis state 3 stays where it is has the frequency 2, which the recipe
    does not see: the recipe's value exceeds the derivative by
    [sin(2 theta) / 4] at every angle, and at [theta = pi/4] it is not the
    derivative. *)
Theorem OrbitalRotation_grad_recipe_inexact (i : Interface) (theta : R) :
  let f := GradRecipe.probability i OrbitalRotation 3 3 in
  let rule := GradRecipe.shift_rule (nth 0 GradRecipe.four_term_grad_recipe []) f in
  GradRecipe.grad_recipe OrbitalRotation = Some GradRecipe.four_term_grad_recipe /\
  derivable_pt_lim f theta (rule theta - sin (2 * theta) / 4) /\
  ~ derivable_pt_lim f (PI / 4) (rule (PI / 4)).
Proof.
  cbv zeta. split; [reflexivity|]. split; [apply OrbitalRotation_probability_derivative|].
  intros D.
  pose proof (uniqueness_limite _ _ _ _ D (OrbitalRotation_probability_derivative i (PI / 4)))
    as E.
  replace (2 * (PI / 4)) with (PI / 2) in E by lra. rewrite sin_PI2 in E. lra.
Qed.

(** ** The sparse generators *)

Lemma generator_T_sound (plus : bool) (ws : list Wire) :
  map_matrix (Sym2.ev 0 0 0 0) (Sym2.generator_T plus)
  = sparse_matrix (if plus then DoubleExcitationPlus_generator ws
                   else DoubleExcitationMinus_generator ws).
Proof. destruct plus; unfold_arrays; list_eq; lra. Qed.

Lemma generator_square_check (plus : bool) :
  Sym2.meqb (@mmul _ Sym2.T_Scalar (Sym2.generator_T plus) (Sym2.generator_T plus))
    (@mscale _ Sym2.T_Scalar (Sym2.of_Q (1 # 4)) (@identity _ Sym2.T_Scalar 16)) = true.
Proof. destruct plus; vm_compute; reflexivity. Qed.

Lemma generator_square (plus : bool) (ws : list Wire) :
  let H := sparse_matrix (if plus then DoubleExcitationPlus_generator ws
                          else DoubleExcitationMinus_generator ws) in
  mmul H H = mscale (RtoC (1 / 4)) (identity 16).
Proof.
  cbv zeta. rewrite <- (generator_T_sound plus ws).
  pose proof (T2_sound 0 0 0 0) as HT.
  rewrite (hom_mmul _ _ _ HT), (meqb2_sound _ _ _ _ _ _ (generator_square_check plus)).
  rewrite (hom_mscale _ _ _ HT), (hom_identity _ _ _ HT), ev_of_Q.
  reflexivity.
Qed.

(** X14. The sparse generators of [DoubleExcitationPlus] and
    [DoubleExcitationMinus] generate the matrices of their classes: the
    observable is on the wires of the operator, the array [H] handed to
    [SparseHamiltonian] is Hermitian with [H H = I / 4], and the matrix at
    [theta] is [cos(theta/2) I + 2i sin(theta/2) H], the closed form of
    [exp(i theta H)] for such an [H]. *)
Theorem sparse_generator_generates (i : Interface) (k : QChemKind) (ws : list Wire)
    (g : SparseHamiltonian) (theta : R) :
  (k = DoubleExcitationPlus /\ g = DoubleExcitationPlus_generator ws) \/
  (k = DoubleExcitationMinus /\ g = DoubleExcitationMinus_generator ws) ->
  sparse_wires g = ws /\
  conjugate_transpose (sparse_matrix g) = sparse_matrix g /\
  mmul (sparse_matrix g) (sparse_matrix g) = mscale (RtoC (1 / 4)) (identity 16) /\
  matrix i k [theta] = Ok (exp_i_theta theta (sparse_matrix g)).
Proof.
  intros [[-> ->] | [-> ->]]; (split; [reflexivity|]); (split; [|split]).
  1,4: unfold_arrays; list_eq; lra.
  1: apply (generator_square true).
  2: apply (generator_square false).
  all: rewrite (matrix_interface i); open_matrix; unfold exp_i_theta, cos_half, sin_half;
    f_equal; generalize (cos (theta / 2)) (sin (theta / 2)); intros c s;
    unfold_arrays; list_eq; lra.
Qed.

Lemma sparse_generator_generates_witness :
  let g := DoubleExcitationPlus_generator [0; 1; 2; 3]%Z in
  sparse_wires g = [0; 1; 2; 3]%Z /\
  conjugate_transpose (sparse_matrix g) = sparse_matrix g /\
  mmul (sparse_matrix g) (sparse_matrix g) = mscale (RtoC (1 / 4)) (identity 16) /\
  matrix numpy DoubleExcitationPlus [0.5] = Ok (exp_i_theta 0.5 (sparse_matrix g)).
Proof.
  apply (sparse_generator_generates numpy DoubleExcitationPlus [0; 1; 2; 3]%Z
           (DoubleExcitationPlus_generator [0; 1; 2; 3]%Z) 0.5).
  left. split; reflexivity.
Defined.
